(** * Verification of [src/services/sql.js]

    The module wraps one database connection.  It offers query helpers
    ([getRows], [getValue], [getMap], [insert], ...) that all go through
    [wrap], and [doInTransaction], which serialises transactions on the
    connection with a global flag and a shared promise.

    The development has two layers, as the source has:
    - [Executor]: the helpers, as functions in a state-and-exception monad
      over the diagnostic log and the list of driver calls;
    - [Coordinator]: [doInTransaction] as a small-step machine over a pool
      of call chains, one step per run-to-completion segment of the
      JavaScript event loop. *)

From stdpp Require Import gmap strings list pretty.

Set Default Proof Using "Type".
Open Scope string_scope.
Open Scope list_scope.

(** ** JavaScript data *)

(** The primitive values the driver hands over and takes as parameters.
    Of the numbers only the integers that a JavaScript number holds exactly
    are represented (magnitude below 2^53); [z] outside that range stands
    for no JavaScript value. *)
Inductive value : Type :=
  | VNull
  | VUndefined
  | VNum (z : Z)
  | VStr (s : string).

#[global] Instance value_eq_dec : EqDecision value.
Proof. solve_decision. Defined.

(** An [Error] object: the two properties the module reads and writes. *)
Record jserror : Type := JsError { message : string; stack : string }.

#[global] Instance jserror_eq_dec : EqDecision jserror.
Proof. solve_decision. Defined.

(** The outcome of an awaited call: the value it resolved to, or the value
    it threw. *)
Inductive result (A : Type) : Type :=
  | Ok (a : A)
  | Thrown (e : jserror).
Arguments Ok {A} a.
Arguments Thrown {A} e.

(** A plain object received from outside (a row, a record to insert): its own
    enumerable properties in the order [Object.keys] lists them.  The
    columns of a row are its properties, first to last in that order. *)
Definition props : Type := list (string * value).

Definition object_keys (o : props) : list string := o.*1.
Definition object_values (o : props) : list value := o.*2.

(** [ToPropertyKey] on the primitives above. *)
Definition to_key (v : value) : string :=
  match v with
  | VNull => "null"
  | VUndefined => "undefined"
  | VNum z => pretty z
  | VStr s => s
  end.

(** [keys[i]]: reading past the end of an array gives [undefined]. *)
Definition array_get (keys : list string) (i : nat) : value :=
  match keys !! i with
  | Some k => VStr k
  | None => VUndefined
  end.

(** [o[k]] on a received object: the first own property named [k], otherwise
    [undefined]. *)
Fixpoint prop_get (o : props) (k : string) : value :=
  match o with
  | [] => VUndefined
  | (k', v) :: o' => if bool_decide (k' = k) then v else prop_get o' k
  end.

Definition member (o : props) (k : value) : value := prop_get o (to_key k).

(** The object [getMap] builds starts as [{}], so it inherits the
    [__proto__] accessor of [Object.prototype]: assigning to that key stores
    no own property; it replaces the prototype when the value is [null] (or
    an object, which [value] does not have) and does nothing otherwise.  Once
    the prototype is [null] the accessor is out of reach and the key is an
    ordinary one. *)
Record jsmap : Type := JsMap { own : gmap string value; proto_null : bool }.

Definition empty_object : jsmap := JsMap ∅ false.

Definition obj_set (o : jsmap) (k : string) (v : value) : jsmap :=
  if bool_decide (k = "__proto__") && negb (proto_null o) then
    match v with
    | VNull => JsMap (own o) true
    | _ => o
    end
  else JsMap (<[k:=v]> (own o)) (proto_null o).

(** [array.join(sep)]. *)
Definition join (sep : string) (l : list string) : string := String.concat sep l.

(** ** The driver *)

(** What [db.run] resolves to. *)
Record run_info : Type := RunInfo { lastID : value; changes : value }.

(** The connection [dbConnection]: what each primitive settles to on a query
    and its parameters. *)
Record driver : Type := Driver {
  run : string → list value → result run_info;
  get : string → list value → result (option props);
  all : string → list value → result (list props);
  exec : string → result unit
}.

Inductive call : Type :=
  | CallRun (q : string) (ps : list value)
  | CallGet (q : string) (ps : list value)
  | CallAll (q : string) (ps : list value)
  | CallExec (q : string).

(** ** The query executor *)

Module Executor.

(** What a helper can change: the diagnostic log and the calls made on the
    driver (oldest first).

    Modelled from the spec: the module [./log] is not among the sources;
    [log.error(msg)] records [msg] as one error-level entry of the diagnostic
    log and returns.  [log] holds these entries, oldest first. *)
Record world : Type := World { log : list string; calls : list call }.

Definition start : world := World [] [].

(** An [async] helper: it runs in a world and either resolves or throws. *)
Definition M (A : Type) : Type := world → result A * world.

Definition ret {A} (a : A) : M A := λ w, (Ok a, w).
Definition bind {A B} (m : M A) (k : A → M B) : M B :=
  λ w, match m w with
       | (Ok a, w') => k a w'
       | (Thrown e, w') => (Thrown e, w')
       end.

Notation "'let*' x ':=' m 'in' k" := (bind m (λ x, k))
  (at level 10, x name, m at level 100, k at level 200).

Definition log_error (msg : string) : M unit :=
  λ w, (Ok (), World (log w ++ [msg]) (calls w)).

Definition issue {A} (c : call) (r : result A) : M A :=
  λ w, (r, World (log w) (calls w ++ [c])).

(** [wrap]'s [catch] block: the entry it logs and the error it throws, from
    the caught error [e] and the stack text of [thisError]. *)
Definition wrap_log (e : jserror) (site : string) : string :=
  "Error executing query. Inner exception: " +:+ stack e +:+ site.

Definition wrap_error (e : jserror) (site : string) : jserror :=
  JsError (stack e) site.

Section Helpers.

(** [dbConnection]. *)
Variable db : driver.

(** The text the runtime puts in [.stack] of the [Error] that [wrap]
    constructs on entry.  It depends on the call chain, which is outside the
    module. *)
Variable site : string.

Definition wrap {A} (func : driver → M A) : M A :=
  λ w,
    let thisError := JsError "" site in
    match func db w with
    | (Ok a, w') => (Ok a, w')
    | (Thrown e, w') =>
        match log_error (wrap_log e (stack thisError)) w' with
        | (_, w'') => (Thrown (wrap_error e (stack thisError)), w'')
        end
    end.

Definition execute (query : string) (params : list value) : M run_info :=
  wrap (λ db, issue (CallRun query params) (run db query params)).

Definition executeScript (query : string) : M unit :=
  wrap (λ db, issue (CallExec query) (exec db query)).

Definition getRow (query : string) (params : list value) : M (option props) :=
  wrap (λ db, issue (CallGet query params) (get db query params)).

Definition getRows (query : string) (params : list value) : M (list props) :=
  wrap (λ db, issue (CallAll query params) (all db query params)).

Definition insert (table_name : string) (rec : props) (replace : bool) : M value :=
  let keys := object_keys rec in
  if bool_decide (length keys = 0) then
    let* _ := log_error ("Can't insert empty object into table " +:+ table_name) in
    ret VUndefined
  else
    let columns := join ", " keys in
    let questionMarks := join ", " (map (λ p, "?") keys) in
    let query := "INSERT " +:+ (if replace then "OR REPLACE" else "") +:+ " INTO "
                 +:+ table_name +:+ "(" +:+ columns +:+ ") VALUES ("
                 +:+ questionMarks +:+ ")" in
    let* res := execute query (object_values rec) in
    ret (lastID res).

Definition replace (table_name : string) (rec : props) : M value :=
  insert table_name rec true.

(** [None] stands for the [null] the function returns. *)
Definition getRowOrNull (query : string) (params : list value) : M (option props) :=
  let* all := getRows query params in
  ret (if bool_decide (0 < length all) then all !! 0 else None).

Definition getValue (query : string) (params : list value) : M value :=
  let* row := getRowOrNull query params in
  match row with
  | None => ret VNull
  | Some row => ret (member row (array_get (object_keys row) 0))
  end.

Definition getMap (query : string) (params : list value) : M jsmap :=
  let map := empty_object in
  let* results := getRows query params in
  ret (foldl (λ map row,
                let keys := object_keys row in
                obj_set map (to_key (member row (array_get keys 0)))
                            (member row (array_get keys 1)))
             map results).

Definition getColumn (query : string) (params : list value) : M (list value) :=
  let lst : list value := [] in
  let* result := getRows query params in
  if bool_decide (length result = 0) then ret lst
  else
    let key := array_get (object_keys (default [] (result !! 0))) 0 in
    ret (foldl (λ lst row, (lst ++ [member row key])%list) lst result).

End Helpers.

(** *** Vocabulary of the helper properties *)

(** The columns of a row, by position. *)
Definition first_column (row : props) : value :=
  match row with
  | [] => VUndefined
  | (_, v) :: _ => v
  end.

Definition second_column (row : props) : value :=
  match row with
  | _ :: (_, v) :: _ => v
  | _ => VUndefined
  end.

(** The statement text of section 6 of the specification:
    [INSERT [OR REPLACE] INTO <table>(<cols>) VALUES (<placeholders>)]. *)
Definition insert_statement (table_name : string) (rec : props) (replace : bool) : string :=
  "INSERT " +:+ (if replace then "OR REPLACE" else "") +:+ " INTO " +:+ table_name
  +:+ "(" +:+ join ", " (object_keys rec) +:+ ") VALUES ("
  +:+ join ", " (map (λ _, "?") (object_keys rec)) +:+ ")".

(** Last write wins, in the words of the specification: the value a mapping
    built from [results] holds under key [k] is the second column of the last
    row whose first column is [k] (as a property key). *)
Definition last_write (k : string) (results : list props) : option value :=
  second_column <$> last (filter (λ row, to_key (first_column row) = k) results).

(** A row as the driver builds it for a two-column query: an object has no
    two properties of one name. *)
Definition two_columns (row : props) : Prop :=
  (2 ≤ length row)%nat ∧ NoDup (object_keys row).

(** How a failure of the driver call [c] with [e] comes out of a helper: the
    helper throws [wrap]'s error and the log has [wrap]'s entry. *)
Definition surfaced {A} (e : jserror) (site : string) (c : call) (w : world)
    : result A * world :=
  (Thrown (wrap_error e site), World (log w ++ [wrap_log e site]) (calls w ++ [c])).

(** A connection on which every call is rejected with [e]. *)
Definition failing (e : jserror) : driver :=
  Driver (λ _ _, Thrown e) (λ _ _, Thrown e) (λ _ _, Thrown e) (λ _, Thrown e).

(** A connection that answers every query with the rows [rows], and every
    statement with the row identifier [id]. *)
Definition answering (rows : list props) (id : value) : driver :=
  Driver (λ _ _, Ok (RunInfo id (VNum 1))) (λ _ _, Ok (head rows))
         (λ _ _, Ok rows) (λ _, Ok ()).

(** The number of occurrences of the character [c] in [s]. *)
Fixpoint count_char (c : Ascii.ascii) (s : string) : nat :=
  match s with
  | EmptyString => 0
  | String c' s' => (if bool_decide (c' = c) then 1 else 0) + count_char c s'
  end.

(** The placeholder character [?] of a statement. *)
Definition question_mark : Ascii.ascii := Ascii.ascii_of_nat 63.

(** The property that [getColumn] reads in every row: the name of the first
    column of the first row. *)
Definition column_key (rows : list props) : value :=
  array_get (object_keys (default [] (rows !! 0))) 0.

End Executor.

(** ** The transaction coordinator *)

Module Coordinator.

(** *** Programs of a call chain *)

(** The code a call chain runs, as far as this module sees it: it returns or
    throws, it awaits [execute] (and may catch what that throws), and it awaits
    [doInTransaction] on a function.  [func] stands for the function's body. *)
Inductive prog : Type :=
  | Return (v : value)
  | Throw (e : jserror)
  | Execute (query : string) (params : list value) (k : result run_info → prog)
  | DoInTransaction (func : prog) (k : result value → prog).

(** *** Statements and the trace *)

(** The statements that reach the driver: the three that [doInTransaction]
    sends through [beginTransaction], [commit] and [rollback] (that is,
    [execute("BEGIN")], [execute("COMMIT")], [execute("ROLLBACK")]), and the
    queries [execute(q)] of the chains' own code. *)
Inductive stmt : Type :=
  | Begin
  | Commit
  | Rollback
  | Query (q : string).

#[global] Instance stmt_eq_dec : EqDecision stmt.
Proof. solve_decision. Defined.

(** A statement is issued when [db.run] is called and completes when the
    promise of that call settles; [ok] tells whether it was fulfilled. *)
Inductive event : Type :=
  | Issued (c : nat) (st : stmt)
  | Completed (c : nat) (st : stmt) (ok : bool).

#[global] Instance event_eq_dec : EqDecision event.
Proof. solve_decision. Defined.

(** *** Promises *)

Inductive pstate : Type :=
  | Pending
  | Fulfilled
  | Rejected (e : jserror).

(** *** Call chains *)

(** A call of [doInTransaction] whose function is running: either the
    reentrant call at line 127, or the executor at line 144 for promise [p].
    [k] is the code that awaits the call. *)
Inductive frame : Type :=
  | Inline (k : result value → prog)
  | Owner (p : nat) (k : result value → prog).

(** Where a chain stands.  The [Await...] states are the suspension points
    of the source: line 131 ([AwaitSlot]), 142 ([AwaitBegin]), 146
    ([AwaitCommit]), 154 ([AwaitRollback]) and 166 ([AwaitOwn]), and the
    [await] of the chain's own [execute].  From the call of the executor to
    its end, the outer function only waits at line 166 for the promise it
    has just created; the executor states carry its continuation [k] and the
    variable [ret]. *)
Inductive control : Type :=
  | Running (code : prog)
  | AwaitExecute (q : string) (k : result run_info → prog)
  | AwaitSlot (p : option nat) (func : prog) (k : result value → prog)
  | AwaitBegin (p : nat) (func : prog) (k : result value → prog)
  | AwaitCommit (p : nat) (ret : value) (k : result value → prog)
  | AwaitRollback (p : nat) (ret : value) (e : jserror) (k : result value → prog)
  | AwaitOwn (p : option nat) (ret : value) (k : result value → prog).

(** Modelled from the spec: the continuation-local storage [cls.namespace]
    (module [./cls], not among the sources).  Each call chain has its own
    boolean [isInTransaction], false at first, that follows the chain across
    its suspension points and that no other chain sees. *)
Record chain : Type := Chain {
  isInTransaction : bool;
  ctl : control;
  frames : list frame
}.

(** *** The state of the process *)

(** The two variables of the module ([transactionActive],
    [transactionPromise]), the promises created so far, the chains, the
    error-level entries of the diagnostic log (as in [Executor.world]) and
    the trace of statements, oldest first. *)
Record state : Type := State {
  transactionActive : bool;
  transactionPromise : option nat;
  promises : list pstate;
  chains : list chain;
  log : list string;
  trace : list event
}.

Definition set_chain (c : nat) (ch : chain) (s : state) : state :=
  State (transactionActive s) (transactionPromise s) (promises s)
        (<[c:=ch]> (chains s)) (log s) (trace s).

Definition emit (e : event) (s : state) : state :=
  State (transactionActive s) (transactionPromise s) (promises s)
        (chains s) (log s) (trace s ++ [e]).

Definition log_error (msg : string) (s : state) : state :=
  State (transactionActive s) (transactionPromise s) (promises s)
        (chains s) (log s ++ [msg]) (trace s).

Definition set_active (b : bool) (s : state) : state :=
  State b (transactionPromise s) (promises s) (chains s) (log s) (trace s).

(** [new Promise(...)]: the fresh promise is the next index of the table. *)
Definition new_promise (s : state) : nat * state :=
  (length (promises s),
   State (transactionActive s) (transactionPromise s) (promises s ++ [Pending])
         (chains s) (log s) (trace s)).

Definition set_promise (p : option nat) (s : state) : state :=
  State (transactionActive s) p (promises s) (chains s) (log s) (trace s).

Definition settle (p : nat) (st : pstate) (s : state) : state :=
  State (transactionActive s) (transactionPromise s) (<[p:=st]> (promises s))
        (chains s) (log s) (trace s).

(** What [await p] resumes with, if it can resume: [await null] goes on at
    once, a pending promise keeps the chain suspended. *)
Definition awaited (s : state) (p : option nat) : option (result unit) :=
  match p with
  | None => Some (Ok ())
  | Some i =>
      match promises s !! i with
      | Some Fulfilled => Some (Ok ())
      | Some (Rejected e) => Some (Thrown e)
      | Some Pending | None => None
      end
  end.

Definition is_ok {A} (r : result A) : bool :=
  match r with Ok _ => true | Thrown _ => false end.

(** The entry that the [catch] block logs at line 152, from the caught error
    and the stack text of [error]. *)
Definition rollback_log (e : jserror) (tx_site : string) : string :=
  "Error executing transaction, executing rollback. Inner exception: "
  +:+ stack e +:+ tx_site.

Section Machine.

(** The stack text of [thisError] in [wrap] and of [error] in
    [doInTransaction] (line 135). *)
Variable site : string.
Variable tx_site : string.

(** The end of an [execute] call: the driver has settled [db.run] with [d];
    [wrap] passes a value on, and logs and replaces an error. *)
Definition wrapped (d : result run_info) (s : state) : result run_info * state :=
  match d with
  | Ok info => (Ok info, s)
  | Thrown e =>
      (Thrown (Executor.wrap_error e site), log_error (Executor.wrap_log e site) s)
  end.

(** Lines 151-154: the [catch] block up to its [await rollback()]. *)
Definition catch_block (c : nat) (ch : chain) (p : nat) (ret : value) (e : jserror)
    (k : result value → prog) (fs : list frame) (s : state) : state :=
  let s := log_error (rollback_log e tx_site) s in
  let s := emit (Issued c Rollback) s in
  set_chain c (Chain (isInTransaction ch) (AwaitRollback p ret e k) fs) s.

(** Lines 130-167, entered at the test of the [while] loop.  When the slot is
    free the chain takes it, creates the promise, and the executor runs up to
    its [await beginTransaction()]; [transactionActive] is then still true, so
    the outer function waits at line 166. *)
Definition enter (c : nat) (ch : chain) (func : prog) (k : result value → prog)
    (s : state) : state :=
  if transactionActive s then
    set_chain c (Chain (isInTransaction ch) (AwaitSlot (transactionPromise s) func k)
                       (frames ch)) s
  else
    let s := set_active true s in
    let '(p, s) := new_promise s in
    let s := emit (Issued c Begin) s in
    let s := set_promise (Some p) s in
    set_chain c (Chain true (AwaitBegin p func k) (frames ch)) s.

(** [doInTransaction(func)], from its call. *)
Definition doInTransaction (c : nat) (ch : chain) (func : prog)
    (k : result value → prog) (s : state) : state :=
  if isInTransaction ch then
    set_chain c (Chain (isInTransaction ch) (Running func) (Inline k :: frames ch)) s
  else enter c ch func k s.

(** The running function has returned or thrown [r]. *)
Definition finish (c : nat) (ch : chain) (r : result value) (s : state) : option state :=
  match frames ch with
  | [] => None
  | Inline k :: fs =>
      Some (set_chain c (Chain (isInTransaction ch) (Running (k r)) fs) s)
  | Owner p k :: fs =>
      match r with
      | Ok v =>
          Some (set_chain c (Chain (isInTransaction ch) (AwaitCommit p v k) fs)
                  (emit (Issued c Commit) s))
      | Thrown e => Some (catch_block c ch p VNull e k fs s)
      end
  end.

(** One segment of chain [c].  [d] is what the driver settles the awaited
    statement with; it is read only in the four states that await the
    driver.  [None]: the chain has ended or is suspended on a pending
    promise. *)
Definition step (c : nat) (d : result run_info) (s : state) : option state :=
  ch ← chains s !! c;
  match ctl ch with
  | Running (Return v) => finish c ch (Ok v) s
  | Running (Throw e) => finish c ch (Thrown e) s
  | Running (Execute q ps k) =>
      Some (set_chain c (Chain (isInTransaction ch) (AwaitExecute q k) (frames ch))
              (emit (Issued c (Query q)) s))
  | Running (DoInTransaction func k) => Some (doInTransaction c ch func k s)
  | AwaitExecute q k =>
      let '(r, s) := wrapped d (emit (Completed c (Query q) (is_ok d)) s) in
      Some (set_chain c (Chain (isInTransaction ch) (Running (k r)) (frames ch)) s)
  | AwaitSlot p func k =>
      match awaited s p with
      | None => None
      | Some (Ok _) => Some (enter c ch func k s)
      | Some (Thrown e) =>
          Some (set_chain c (Chain (isInTransaction ch) (Running (k (Thrown e)))
                               (frames ch)) s)
      end
  | AwaitBegin p func k =>
      let '(r, s) := wrapped d (emit (Completed c Begin (is_ok d)) s) in
      match r with
      | Ok _ =>
          Some (set_chain c (Chain (isInTransaction ch) (Running func)
                               (Owner p k :: frames ch)) s)
      | Thrown e => Some (catch_block c ch p VNull e k (frames ch) s)
      end
  | AwaitCommit p ret k =>
      let '(r, s) := wrapped d (emit (Completed c Commit (is_ok d)) s) in
      match r with
      | Ok _ =>
          let s := set_active false s in
          let s := settle p Fulfilled s in
          Some (set_chain c (Chain false (AwaitOwn (Some p) ret k) (frames ch)) s)
      | Thrown e => Some (catch_block c ch p ret e k (frames ch) s)
      end
  | AwaitRollback p ret e k =>
      let '(r, s) := wrapped d (emit (Completed c Rollback (is_ok d)) s) in
      match r with
      | Ok _ =>
          let s := set_active false s in
          let s := settle p (Rejected e) s in
          Some (set_chain c (Chain false (AwaitOwn (Some p) ret k) (frames ch)) s)
      | Thrown _ =>
          Some (set_chain c (Chain false (AwaitOwn (Some p) ret k) (frames ch)) s)
      end
  | AwaitOwn p ret k =>
      match awaited s p with
      | None => None
      | Some (Ok _) =>
          Some (set_chain c (Chain (isInTransaction ch) (Running (k (Ok ret)))
                               (frames ch)) s)
      | Some (Thrown e) =>
          Some (set_chain c (Chain (isInTransaction ch) (Running (k (Thrown e)))
                               (frames ch)) s)
      end
  end.

(** Playing a schedule: which chain runs next and what the driver answers. *)
Fixpoint play (sched : list (nat * result run_info)) (s : state) : option state :=
  match sched with
  | [] => Some s
  | (c, d) :: rest =>
      match step c d s with
      | Some s' => play rest s'
      | None => None
      end
  end.

End Machine.

(** The process at start: the slot is idle, no promise exists, every chain is
    outside a transaction and about to run its code. *)
Definition boot (codes : list prog) : state :=
  State false None [] ((λ code, Chain false (Running code) []) <$> codes) [] [].

(** *** Vocabulary of the coordinator properties *)

(** The events that open and close a transaction on the connection: the
    coordinator's BEGIN is issued; its COMMIT or ROLLBACK is issued
    ([ends_issued]), and has completed ([ends]: a COMMIT that was fulfilled,
    or a ROLLBACK that settled either way). *)
Definition begins (e : event) : bool :=
  match e with
  | Issued _ Begin => true
  | _ => false
  end.

Definition ends_issued (e : event) : bool :=
  match e with
  | Issued _ Commit | Issued _ Rollback => true
  | _ => false
  end.

Definition ends (e : event) : bool :=
  match e with
  | Completed _ Commit true | Completed _ Rollback _ => true
  | _ => false
  end.

(** Whether a transaction is open after the events [tr], when it was
    [open] before them. *)
Fixpoint open_from (closes : event → bool) (open : bool) (tr : list event) : bool :=
  match tr with
  | [] => open
  | e :: tr' =>
      open_from closes (if begins e then true else if closes e then false else open) tr'
  end.

Definition open_after (closes : event → bool) (tr : list event) : bool :=
  open_from closes false tr.

(** Every BEGIN of [tr] is issued while no transaction is open. *)
Fixpoint exclusive_from (closes : event → bool) (open : bool) (tr : list event) : bool :=
  match tr with
  | [] => true
  | e :: tr' =>
      if begins e then negb open && exclusive_from closes true tr'
      else exclusive_from closes (if closes e then false else open) tr'
  end.

Definition exclusive (closes : event → bool) (tr : list event) : bool :=
  exclusive_from closes false tr.

(** Mutual exclusion on a trace, as the specification words it: between two
    BEGIN statements there is a closing event. *)
Definition mutual_exclusion (closes : event → bool) (tr : list event) : Prop :=
  ∀ t1 c1 t2 c2 t3,
    tr = t1 ++ Issued c1 Begin :: t2 ++ Issued c2 Begin :: t3 →
    ∃ e, e ∈ t2 ∧ closes e = true.

(** How many transactions a chain is the owner of: one if it stands in the
    executor at one of its three statements, one for each executor whose
    function it is running. *)
Definition owner_ctl (ct : control) : bool :=
  match ct with
  | AwaitBegin _ _ _ | AwaitCommit _ _ _ | AwaitRollback _ _ _ _ => true
  | _ => false
  end.

Fixpoint owner_frames (fs : list frame) : nat :=
  match fs with
  | [] => 0
  | Owner _ _ :: fs' => S (owner_frames fs')
  | Inline _ :: fs' => owner_frames fs'
  end.

Definition owners (ch : chain) : nat :=
  (if owner_ctl (ctl ch) then 1 else 0) + owner_frames (frames ch).

(** The executor has issued the statement that ends its transaction. *)
Definition closing (ct : control) : bool :=
  match ct with
  | AwaitCommit _ _ _ | AwaitRollback _ _ _ _ => true
  | _ => false
  end.

(** No chain owns a transaction. *)
Definition quiet (s : state) : Prop :=
  ∀ c ch, chains s !! c = Some ch → owners ch = 0.

(** Chain [c] owns the one transaction there is. *)
Definition held_by (c : nat) (s : state) : Prop :=
  transactionActive s = true
  ∧ (∃ ch, chains s !! c = Some ch ∧ owners ch = 1
           ∧ (closing (ctl ch) = true → open_after ends_issued (trace s) = false))
  ∧ (∀ c' ch', c' ≠ c → chains s !! c' = Some ch' → owners ch' = 0).

(** The invariant of the coordinator. *)
Definition invariant (s : state) : Prop :=
  exclusive ends_issued (trace s) = true
  ∧ exclusive ends (trace s) = true
  ∧ ((quiet s ∧ open_after ends (trace s) = false
              ∧ open_after ends_issued (trace s) = false)
     ∨ ∃ c, held_by c s).

(** A chain has ended when its code has returned or thrown with no caller
    left; [outcome] is what it ended with. *)
Definition outcome (ch : chain) : option (result value) :=
  match ctl ch, frames ch with
  | Running (Return v), [] => Some (Ok v)
  | Running (Throw e), [] => Some (Thrown e)
  | _, _ => None
  end.

(** The usual caller: it passes on what [doInTransaction] returned or
    threw. *)
Definition pass (r : result value) : prog :=
  match r with
  | Ok v => Return v
  | Thrown e => Throw e
  end.

(** What one step of chain [c] does to ownership, from its chain before
    ([ch]) and after ([ch']) and the events [evs] it adds: it leaves
    ownership alone; it moves the executor to the statement that ends the
    transaction; it takes the free slot and issues BEGIN; or it ends the
    transaction. *)
Definition effect (c : nat) (s s' : state) (ch ch' : chain) (evs : list event) : Prop :=
  (transactionActive s' = transactionActive s ∧ owners ch' = owners ch
   ∧ promises s' = promises s
   ∧ Forall (λ e, begins e = false ∧ ends e = false ∧ ends_issued e = false) evs
   ∧ (closing (ctl ch') = true → closing (ctl ch) = true))
  ∨ (transactionActive s' = transactionActive s ∧ owners ch' = owners ch
     ∧ 0 < owners ch ∧ closing (ctl ch') = true
     ∧ Forall (λ e, begins e = false ∧ ends e = false) evs
     ∧ ∃ pre e, evs = pre ++ [e] ∧ ends_issued e = true)
  ∨ (transactionActive s = false ∧ transactionActive s' = true
     ∧ owners ch' = S (owners ch) ∧ closing (ctl ch') = false
     ∧ evs = [Issued c Begin])
  ∨ (closing (ctl ch) = true ∧ S (owners ch') = owners ch
     ∧ ∃ e, evs = [e] ∧ begins e = false ∧ ends e = true ∧ ends_issued e = false).

(** The slot is stuck: it is marked active and no chain is there to free
    it. *)
Definition stuck (s : state) : Prop :=
  quiet s ∧ transactionActive s = true.

(** The promise a suspended chain waits for. *)
Definition waits_for (ct : control) : option nat :=
  match ct with
  | AwaitSlot (Some p) _ _ | AwaitOwn (Some p) _ _ => Some p
  | _ => None
  end.

(** The same process with [extra] callers below the frames of chain [c]. *)
Definition extend (c : nat) (extra : list frame) (s : state) : state :=
  match chains s !! c with
  | Some ch => set_chain c (Chain (isInTransaction ch) (ctl ch) (frames ch ++ extra)) s
  | None => s
  end.

(** An event that chain [c] caused, and an event of one of the coordinator's
    three statements. *)
Definition by_chain (c : nat) (e : event) : bool :=
  match e with
  | Issued c' _ | Completed c' _ _ => bool_decide (c' = c)
  end.

Definition coordinator_stmt (e : event) : bool :=
  match e with
  | Issued _ (Query _) | Completed _ (Query _) _ => false
  | _ => true
  end.

(** A chain that has joined a transaction and runs plain code: its flag is
    set, it owns nothing, and it is running or awaits its own statement. *)
Definition plain_ctl (ct : control) : bool :=
  match ct with
  | Running _ | AwaitExecute _ _ => true
  | _ => false
  end.

Definition joined (c : nat) (s : state) : Prop :=
  ∃ ch, chains s !! c = Some ch ∧ isInTransaction ch = true
        ∧ owners ch = 0 ∧ plain_ctl (ctl ch) = true.

(** Chain [c] has sent none of the coordinator's statements in [evs]. *)
Definition silent (c : nat) (evs : list event) : Prop :=
  Forall (λ e, by_chain c e = true → coordinator_stmt e = false) evs.

(** The process in which chain 0 runs [func] on its own inside the
    transaction it has opened (BEGIN has completed), next to the chains
    [rest] that have not started. *)
Definition opened (func : prog) (rest : list prog) : state :=
  State true (Some 0) [Pending]
        (Chain true (Running func) [] :: ((λ code, Chain false (Running code) []) <$> rest))
        [] [Issued 0 Begin; Completed 0 Begin true].

(** The promise of the transaction a chain owns: the one its executor
    carries. *)
Fixpoint frame_promise (fs : list frame) : option nat :=
  match fs with
  | [] => None
  | Owner p _ :: _ => Some p
  | Inline _ :: fs' => frame_promise fs'
  end.

Definition owned_promise (ch : chain) : option nat :=
  match ctl ch with
  | AwaitBegin p _ _ | AwaitCommit p _ _ | AwaitRollback p _ _ _ => Some p
  | _ => frame_promise (frames ch)
  end.

(** The promise of every open transaction is pending. *)
Definition owner_pending (s : state) : Prop :=
  ∀ c ch p, chains s !! c = Some ch → owned_promise ch = Some p →
            promises s !! p = Some Pending.

(** What one step of a chain does to the promises: nothing; it creates one,
    for the transaction the chain now owns; or the chain ends its
    transaction and no other promise changes. *)
Definition promise_effect (s s' : state) (ch ch' : chain) : Prop :=
  (promises s' = promises s ∧ owned_promise ch' = owned_promise ch)
  ∨ (promises s' = promises s ++ [Pending]
     ∧ owned_promise ch' = Some (length (promises s)))
  ∨ (closing (ctl ch) = true ∧ S (owners ch') = owners ch
     ∧ ∀ q, owned_promise ch ≠ Some q → promises s' !! q = promises s !! q).

(** Sample code: a function that inserts a note and returns its row
    identifier, letting a failure of the statement through. *)
Definition insert_note (q : string) (ps : list value) : prog :=
  Execute q ps (λ r, match r with
                     | Ok info => Return (lastID info)
                     | Thrown e => Throw e
                     end).

(** Sample answer of the driver: a statement that succeeded. *)
Definition done_ok : result run_info := Ok (RunInfo (VNum 1) (VNum 1)).

(** Sample process: two chains, each inserting a note in a transaction. *)
Definition two_inserts : list prog :=
  [DoInTransaction (insert_note "INSERT INTO notes(noteId) VALUES (?)" [VStr "a"]) pass;
   DoInTransaction (insert_note "INSERT INTO notes(noteId) VALUES (?)" [VStr "b"]) pass].

(** Sample interleaving: chain 0 takes the slot, chain 1 arrives and waits,
    chain 0 commits and returns, chain 1 wakes up and runs its own
    transaction. *)
Definition one_after_the_other : list (nat * result run_info) :=
  [(0, done_ok); (1, done_ok); (0, done_ok); (0, done_ok); (0, done_ok);
   (0, done_ok); (0, done_ok); (0, done_ok); (1, done_ok); (1, done_ok);
   (1, done_ok); (1, done_ok); (1, done_ok); (1, done_ok); (1, done_ok)].

(** *** Vocabulary of further properties of the coordinator *)

(** The chain waits for a promise (line 131 or line 166). *)
Definition suspended (ct : control) : bool :=
  match ct with
  | AwaitSlot _ _ _ | AwaitOwn _ _ _ => true
  | _ => false
  end.

(** Where a transaction stands, read off the coordinator's statements:
    no transaction; BEGIN issued by chain [c]; BEGIN fulfilled, the function
    of [c] runs; COMMIT issued; BEGIN or COMMIT rejected (the [catch] block
    is about to issue ROLLBACK); ROLLBACK issued. *)
Inductive phase : Type :=
  | Idle
  | Beginning (c : nat)
  | Working (c : nat)
  | Committing (c : nat)
  | Failed (c : nat)
  | RollingBack (c : nat).

#[global] Instance phase_eq_dec : EqDecision phase.
Proof. solve_decision. Defined.

(** The phase after one more event; [None] when the event cannot follow.
    Queries of the chains' own code leave the phase as it is. *)
Definition advance (ph : phase) (e : event) : option phase :=
  match e with
  | Issued _ (Query _) | Completed _ (Query _) _ => Some ph
  | Issued c Begin =>
      match ph with
      | Idle => Some (Beginning c)
      | _ => None
      end
  | Completed c Begin ok =>
      match ph with
      | Beginning c' =>
          if bool_decide (c = c') then Some (if ok then Working c else Failed c)
          else None
      | _ => None
      end
  | Issued c Commit =>
      match ph with
      | Working c' => if bool_decide (c = c') then Some (Committing c) else None
      | _ => None
      end
  | Completed c Commit ok =>
      match ph with
      | Committing c' =>
          if bool_decide (c = c') then Some (if ok then Idle else Failed c) else None
      | _ => None
      end
  | Issued c Rollback =>
      match ph with
      | Working c' | Failed c' =>
          if bool_decide (c = c') then Some (RollingBack c) else None
      | _ => None
      end
  | Completed c Rollback _ =>
      match ph with
      | RollingBack c' => if bool_decide (c = c') then Some Idle else None
      | _ => None
      end
  end.

Fixpoint advance_all (ph : phase) (tr : list event) : option phase :=
  match tr with
  | [] => Some ph
  | e :: tr' =>
      match advance ph e with
      | Some ph' => advance_all ph' tr'
      | None => None
      end
  end.

(** The phase in which chain [c] holds its transaction, from where the chain
    stands; [Idle] when it owns none. *)
Definition chain_phase (c : nat) (ch : chain) : phase :=
  match ctl ch with
  | AwaitBegin _ _ _ => Beginning c
  | AwaitCommit _ _ _ => Committing c
  | AwaitRollback _ _ _ _ => RollingBack c
  | _ =>
      match owner_frames (frames ch) with
      | 0 => Idle
      | S _ => Working c
      end
  end.

(** The trace of a state is a sequence of whole transactions followed by the
    one in progress, and that one is where its owner stands. *)
Definition in_phase (s : state) : Prop :=
  ∃ ph, advance_all Idle (trace s) = Some ph
        ∧ ((quiet s ∧ ph = Idle)
           ∨ ∃ c ch, chains s !! c = Some ch ∧ 0 < owners ch ∧ chain_phase c ch = ph).

(** The flag of every chain tells whether the chain owns a transaction. *)
Definition flag_is_owner (s : state) : Prop :=
  ∀ c ch, chains s !! c = Some ch → (isInTransaction ch = true ↔ 0 < owners ch).

(** No owner of a transaction waits for a promise. *)
Definition owner_awake (s : state) : Prop :=
  ∀ c ch, chains s !! c = Some ch → suspended (ctl ch) = true → owners ch = 0.

(** While the slot is marked active, [transactionPromise] is a pending
    promise. *)
Definition slot_promise_pending (s : state) : Prop :=
  transactionActive s = true →
  ∃ p, transactionPromise s = Some p ∧ promises s !! p = Some Pending.

(** [transactionPromise] is the promise of the transaction that is owned. *)
Definition slot_promise_owned (s : state) : Prop :=
  ∀ c ch p, chains s !! c = Some ch → owned_promise ch = Some p →
            transactionPromise s = Some p.

(** A ROLLBACK has been rejected. *)
Definition rollback_rejected_in (tr : list event) : Prop :=
  ∃ c, Completed c Rollback false ∈ tr.

(** The slot is marked active only for an owner, unless a ROLLBACK has been
    rejected. *)
Definition active_has_cause (s : state) : Prop :=
  transactionActive s = true →
  (∃ c ch, chains s !! c = Some ch ∧ 0 < owners ch) ∨ rollback_rejected_in (trace s).

(** A promise that has been fulfilled or rejected. *)
Definition settled (st : pstate) : bool :=
  match st with
  | Pending => false
  | _ => true
  end.

(** The only promise that can be pending is [transactionPromise], and only
    while the slot is marked active. *)
Definition pending_is_slot (s : state) : Prop :=
  ∀ p, promises s !! p = Some Pending →
       transactionActive s = true ∧ transactionPromise s = Some p.


End Coordinator.

(** ** The index route ([routes/index.js]) *)

Module Routes.
Import Executor.

(** [ToString] of a primitive, as a template literal applies it to its
    substitutions; on the primitives of [value] it is the text that
    [ToPropertyKey] gives. *)
Definition to_string (v : value) : string := to_key v.

(** The line break inside the template literal of [getAppCss]. *)
Definition newline : string := String (Ascii.ascii_of_nat 10) "".

(** The object handed to [res.render('index', ...)]. *)
Record page : Type := Page {
  sourceId : value;
  maxSyncIdAtLoad : value;
  instanceName : value;
  appCss : string
}.

Section Index.

Variable db : driver.
Variable site : string.

(** [sourceIdService.generateSourceId()] and
    [labelService.getNotesWithLabel(name)].  The two modules are not among
    the sources: each call is left open, as any asynchronous computation on
    the log and the connection that resolves (to a primitive, to an array of
    notes) or throws. *)
Variable generateSourceId : M value.
Variable getNotesWithLabel : string → M (list props).

(** [config.General]: the section of the configuration, if present. *)
Variable General : option props.

Definition getAppCss : M string :=
  let css := "" in
  let* notes := getNotesWithLabel "app_css" in
  ret (foldl (λ css note,
                css +:+ ("/* " +:+ to_string (prop_get note "noteId") +:+ " */"
                         +:+ newline +:+ to_string (prop_get note "content")
                         +:+ newline +:+ newline))
             css notes).

(** [index(req, res)]: what it renders.  The properties of the object are
    evaluated in the order they are written. *)
Definition index : M page :=
  let* sourceId := generateSourceId in
  let* maxSyncIdAtLoad := getValue db site "SELECT MAX(id) FROM sync" [] in
  let instanceName := match General with
                      | Some general => prop_get general "instanceName"
                      | None => VNull
                      end in
  let* appCss := getAppCss in
  ret (Page sourceId maxSyncIdAtLoad instanceName appCss).

End Index.

(** *** Vocabulary of the route properties *)

(** The block of one note in the aggregated style sheet. *)
Definition css_block (note : props) : string :=
  "/* " +:+ to_string (prop_get note "noteId") +:+ " */" +:+ newline
  +:+ to_string (prop_get note "content") +:+ newline +:+ newline.

(** A source of notes that does nothing but resolve to [notes]. *)
Definition notes_are (notes : list props) : string → M (list props) :=
  λ _, ret notes.

End Routes.


(** * Properties of the query executor *)

Module ExecutorFacts.
Import Executor.

Section Wrap.

Variable db : driver.
Variable site : string.

(** [wrap] hands a success through and touches nothing. *)
Lemma wrap_ok {A} (func : driver → M A) w a w' :
  func db w = (Ok a, w') → wrap db site func w = (Ok a, w').
Proof. intros H. unfold wrap. by rewrite H. Qed.

(** [wrap] on a failure: one log entry, one new error. *)
Lemma wrap_thrown {A} (func : driver → M A) w e w' :
  func db w = (Thrown e, w') →
  wrap db site func w =
    (Thrown (JsError (stack e) site),
     World (log w' ++ [wrap_log e site]) (calls w')).
Proof. intros H. unfold wrap. by rewrite H. Qed.

Lemma getRows_ok query params rows w :
  all db query params = Ok rows →
  getRows db site query params w =
    (Ok rows, World (log w) (calls w ++ [CallAll query params])).
Proof. intros H. unfold getRows. apply wrap_ok. unfold issue. by rewrite H. Qed.

Lemma getRows_thrown query params e w :
  all db query params = Thrown e →
  getRows db site query params w =
    (Thrown (JsError (stack e) site),
     World (log w ++ [wrap_log e site]) (calls w ++ [CallAll query params])).
Proof.
  intros H. unfold getRows.
  rewrite (wrap_thrown _ w e (World (log w) (calls w ++ [CallAll query params]))); [done|].
  unfold issue. by rewrite H.
Qed.

Lemma execute_ok query params info w :
  run db query params = Ok info →
  execute db site query params w =
    (Ok info, World (log w) (calls w ++ [CallRun query params])).
Proof. intros H. unfold execute. apply wrap_ok. unfold issue. by rewrite H. Qed.

Lemma execute_thrown query params e w :
  run db query params = Thrown e →
  execute db site query params w =
    (Thrown (JsError (stack e) site),
     World (log w ++ [wrap_log e site]) (calls w ++ [CallRun query params])).
Proof.
  intros H. unfold execute.
  rewrite (wrap_thrown _ w e (World (log w) (calls w ++ [CallRun query params]))); [done|].
  unfold issue. by rewrite H.
Qed.

(** [execute] always makes exactly one call on the driver. *)
Lemma execute_calls query params w :
  calls (execute db site query params w).2 = calls w ++ [CallRun query params].
Proof.
  destruct (run db query params) as [info|e] eqn:H.
  - by rewrite (execute_ok _ _ _ _ H).
  - by rewrite (execute_thrown _ _ _ _ H).
Qed.

Lemma insert_unfold table_name rec replace w :
  rec ≠ [] →
  insert db site table_name rec replace w =
    bind (execute db site (insert_statement table_name rec replace) (object_values rec))
         (λ res, ret (lastID res)) w.
Proof.
  intros Hne. unfold insert.
  rewrite bool_decide_eq_false_2; [reflexivity|].
  destruct rec; [done|]. unfold object_keys. simpl. lia.
Qed.

End Wrap.

(** C6.  An [insert] of a record with no field makes no call on the driver,
    adds one error entry to the log and returns [undefined] without throwing.
    An [insert] of a record with at least one field makes exactly one call,
    [db.run] with the INSERT statement and the record's values, and returns
    the [lastID] of what the driver resolves to. *)
Theorem insert_contract (db : driver) (site table_name : string) (rec : props)
    (replace : bool) (w : world) :
  (rec = [] →
     insert db site table_name rec replace w =
       (Ok VUndefined,
        World (log w ++ ["Can't insert empty object into table " +:+ table_name])
              (calls w)))
  ∧ (rec ≠ [] →
     let query := insert_statement table_name rec replace in
     calls (insert db site table_name rec replace w).2 =
       calls w ++ [CallRun query (object_values rec)]
     ∧ ∀ info, run db query (object_values rec) = Ok info →
         insert db site table_name rec replace w =
           (Ok (lastID info),
            World (log w) (calls w ++ [CallRun query (object_values rec)]))).
Proof.
  split.
  - intros ->. reflexivity.
  - intros Hne query. rewrite insert_unfold by done. fold query. split.
    + unfold bind.
      pose proof (execute_calls db site query (object_values rec) w) as Hc.
      destruct (execute db site query (object_values rec) w) as [[res|e] w']; exact Hc.
    + intros info Hrun. unfold bind.
      by rewrite (execute_ok db site _ _ _ w Hrun).
Qed.

(** The two cases of C6 on the [notes] table. *)
Lemma insert_contract_witness :
  insert (answering [] (VNum 7)) "at wrap" "notes" [] false start =
    (Ok VUndefined, World ["Can't insert empty object into table notes"] [])
  ∧ insert (answering [] (VNum 7)) "at wrap" "notes"
      [("noteId", VStr "n1"); ("title", VStr "hi")] false start =
    (Ok (VNum 7),
     World [] [CallRun "INSERT  INTO notes(noteId, title) VALUES (?, ?)"
                       [VStr "n1"; VStr "hi"]]).
Proof.
  split.
  - exact (proj1 (insert_contract (answering [] (VNum 7)) "at wrap" "notes" []
                    false start) eq_refl).
  - refine (proj2 (proj2 (insert_contract (answering [] (VNum 7)) "at wrap" "notes"
                    [("noteId", VStr "n1"); ("title", VStr "hi")] false start) _)
                  (RunInfo (VNum 7) (VNum 1)) eq_refl).
    discriminate.
Defined.

Section Reads.

Variable db : driver.
Variable site : string.

(** Reading a row under the name of its first property gives its first
    value. *)
Lemma member_first (row : props) :
  member row (array_get (object_keys row) 0) = first_column row.
Proof.
  destruct row as [|[k v] row]; [reflexivity|].
  unfold member, array_get, object_keys. simpl.
  by rewrite bool_decide_eq_true_2.
Qed.

Lemma getRowOrNull_ok query params rows w :
  all db query params = Ok rows →
  getRowOrNull db site query params w =
    (Ok (head rows), World (log w) (calls w ++ [CallAll query params])).
Proof.
  intros H. unfold getRowOrNull, bind. rewrite (getRows_ok _ _ _ _ _ _ H).
  unfold ret. destruct rows as [|row rows]; [reflexivity|].
  rewrite bool_decide_eq_true_2; [reflexivity|simpl; lia].
Qed.

End Reads.

(** C7.  When the driver resolves the query to [rows], [getValue] returns the
    first column of the first row, and [null] when there is no row;
    [getRowOrNull] returns the first row, and [null] ([None]) when there is
    no row.  Neither throws, neither logs, each makes the one [db.all]
    call. *)
Theorem getValue_result (db : driver) (site query : string) (params : list value)
    (rows : list props) (w : world) :
  all db query params = Ok rows →
  getValue db site query params w =
    (Ok (match rows with [] => VNull | row :: _ => first_column row end),
     World (log w) (calls w ++ [CallAll query params]))
  ∧ getRowOrNull db site query params w =
    (Ok (head rows), World (log w) (calls w ++ [CallAll query params])).
Proof.
  intros H. split; [|by apply getRowOrNull_ok].
  unfold getValue, bind. rewrite (getRowOrNull_ok _ _ _ _ _ _ H).
  destruct rows as [|row rows]; simpl; [reflexivity|].
  unfold ret. by rewrite member_first.
Qed.

(** C7 on [SELECT MAX(id) FROM sync]: a table with no row, and one row. *)
Lemma getValue_result_witness :
  (getValue (answering [] VNull) "at wrap" "SELECT MAX(id) FROM sync" [] start =
     (Ok VNull, World [] [CallAll "SELECT MAX(id) FROM sync" []])
   ∧ getRowOrNull (answering [] VNull) "at wrap" "SELECT MAX(id) FROM sync" [] start =
     (Ok None, World [] [CallAll "SELECT MAX(id) FROM sync" []]))
  ∧ (getValue (answering [[("MAX(id)", VNum 41)]] VNull) "at wrap"
       "SELECT MAX(id) FROM sync" [] start =
     (Ok (VNum 41), World [] [CallAll "SELECT MAX(id) FROM sync" []])
   ∧ getRowOrNull (answering [[("MAX(id)", VNum 41)]] VNull) "at wrap"
       "SELECT MAX(id) FROM sync" [] start =
     (Ok (Some [("MAX(id)", VNum 41)]),
      World [] [CallAll "SELECT MAX(id) FROM sync" []])).
Proof.
  split.
  - exact (getValue_result (answering [] VNull) "at wrap"
             "SELECT MAX(id) FROM sync" [] [] start eq_refl).
  - exact (getValue_result (answering [[("MAX(id)", VNum 41)]] VNull) "at wrap"
             "SELECT MAX(id) FROM sync" [] [[("MAX(id)", VNum 41)]] start eq_refl).
Defined.

(** C9, as amended.  Whenever the driver call behind a helper is rejected
    with [e], the helper throws: it makes the one call, adds to the log one
    entry that concatenates the text of [e] with the call-site trace captured
    on entry to [wrap], and throws one new error whose message is the text of
    [e] and whose own trace is the captured one.  This holds of every helper,
    [insert] and [replace] on a record with a field included. *)
Theorem driver_failure_is_wrapped (db : driver) (site : string) (e : jserror)
    (w : world) :
  (∀ q ps, run db q ps = Thrown e →
     execute db site q ps w = surfaced e site (CallRun q ps) w)
  ∧ (∀ q, exec db q = Thrown e →
     executeScript db site q w = surfaced e site (CallExec q) w)
  ∧ (∀ q ps, get db q ps = Thrown e →
     getRow db site q ps w = surfaced e site (CallGet q ps) w)
  ∧ (∀ q ps, all db q ps = Thrown e →
     getRows db site q ps w = surfaced e site (CallAll q ps) w
     ∧ getRowOrNull db site q ps w = surfaced e site (CallAll q ps) w
     ∧ getValue db site q ps w = surfaced e site (CallAll q ps) w
     ∧ getMap db site q ps w = surfaced e site (CallAll q ps) w
     ∧ getColumn db site q ps w = surfaced e site (CallAll q ps) w)
  ∧ (∀ table_name rec r, rec ≠ [] →
     run db (insert_statement table_name rec r) (object_values rec) = Thrown e →
     insert db site table_name rec r w =
       surfaced e site (CallRun (insert_statement table_name rec r) (object_values rec)) w)
  ∧ (∀ table_name rec, rec ≠ [] →
     run db (insert_statement table_name rec true) (object_values rec) = Thrown e →
     replace db site table_name rec w =
       surfaced e site (CallRun (insert_statement table_name rec true) (object_values rec)) w).
Proof.
  assert (Hins : ∀ table_name rec r, rec ≠ [] →
     run db (insert_statement table_name rec r) (object_values rec) = Thrown e →
     insert db site table_name rec r w =
       surfaced e site (CallRun (insert_statement table_name rec r) (object_values rec)) w).
  { intros table_name rec r Hne H. rewrite insert_unfold by done.
    unfold bind. by rewrite (execute_thrown db site _ _ _ w H). }
  repeat split.
  - intros q ps H. by rewrite (execute_thrown db site _ _ _ w H).
  - intros q H. unfold executeScript.
    rewrite (wrap_thrown db site _ w e (World (log w) (calls w ++ [CallExec q])));
      [done|]. unfold issue. by rewrite H.
  - intros q ps H. unfold getRow.
    rewrite (wrap_thrown db site _ w e (World (log w) (calls w ++ [CallGet q ps])));
      [done|]. unfold issue. by rewrite H.
  - by rewrite (getRows_thrown db site _ _ _ w H).
  - unfold getRowOrNull, bind. by rewrite (getRows_thrown db site _ _ _ w H).
  - unfold getValue, getRowOrNull, bind.
    by rewrite (getRows_thrown db site _ _ _ w H).
  - unfold getMap, bind. by rewrite (getRows_thrown db site _ _ _ w H).
  - unfold getColumn, bind. by rewrite (getRows_thrown db site _ _ _ w H).
  - exact Hins.
  - intros table_name rec Hne H. unfold replace. by apply Hins.
Qed.

(** C9 on a connection that rejects every call. *)
Lemma driver_failure_is_wrapped_witness :
  getValue (failing (JsError "SQLITE_BUSY" "Error: SQLITE_BUSY at run"))
      "Error at wrap" "SELECT MAX(id) FROM sync" [] start =
    (Thrown (JsError "Error: SQLITE_BUSY at run" "Error at wrap"),
     World ["Error executing query. Inner exception: Error: SQLITE_BUSY at runError at wrap"]
           [CallAll "SELECT MAX(id) FROM sync" []]).
Proof.
  exact (proj1 (proj2 (proj2 (proj1 (proj2 (proj2 (proj2
    (driver_failure_is_wrapped
       (failing (JsError "SQLITE_BUSY" "Error: SQLITE_BUSY at run"))
       "Error at wrap" (JsError "SQLITE_BUSY" "Error: SQLITE_BUSY at run") start))))
    "SELECT MAX(id) FROM sync" [] eq_refl)))).
Defined.

(** C9 as the specification words it fails: the message of the error that
    [wrap] throws is the text of the causing error alone; the captured trace
    is not part of it. *)
Lemma wrap_message_is_not_the_concatenation :
  let e := JsError "SQLITE_BUSY" "Error: SQLITE_BUSY at run" in
  let site := "Error at wrap" in
  ∃ e' w', execute (failing e) site "COMMIT" [] start = (Thrown e', w')
           ∧ message e' = stack e
           ∧ message e' ≠ stack e +:+ site
           ∧ message e' ≠ site +:+ stack e.
Proof.
  eexists _, _. split; [reflexivity|]. split; [reflexivity|].
  split; discriminate.
Qed.

Section Maps.

Variable db : driver.
Variable site : string.

(** The loop of [getMap] (lines 73-77) over the rows [results]. *)
Lemma getMap_ok query params results w :
  all db query params = Ok results →
  getMap db site query params w =
    (Ok (foldl (λ map row,
                  obj_set map
                    (to_key (member row (array_get (object_keys row) 0)))
                    (member row (array_get (object_keys row) 1)))
               empty_object results),
     World (log w) (calls w ++ [CallAll query params])).
Proof.
  intros H. unfold getMap, bind. by rewrite (getRows_ok _ _ _ _ _ _ H).
Qed.

(** Reading a row under the name of its second property gives its second
    value, as the two names differ. *)
Lemma member_second (row : props) :
  two_columns row →
  member row (array_get (object_keys row) 1) = second_column row.
Proof.
  intros [Hlen Hnd].
  destruct row as [|[k0 v0] [|[k1 v1] row]]; simpl in Hlen; [lia|lia|].
  unfold member, array_get, object_keys. simpl.
  unfold object_keys in Hnd. simpl in Hnd.
  apply NoDup_cons_1_1 in Hnd.
  rewrite bool_decide_eq_false_2; [by rewrite bool_decide_eq_true_2|].
  intros ->. apply Hnd. left.
Qed.

(** An assignment [map[k] = v] seen from a key other than [__proto__]. *)
Lemma own_obj_set (o : jsmap) (k k' : string) (v : value) :
  k' ≠ "__proto__" →
  own (obj_set o k v) !! k' = if decide (k = k') then Some v else own o !! k'.
Proof.
  intros Hk'. unfold obj_set.
  destruct (bool_decide (k = "__proto__") && negb (proto_null o)) eqn:Hb.
  - apply andb_true_iff in Hb as [Hk%bool_decide_eq_true _].
    rewrite decide_False by congruence. by destruct v.
  - simpl. apply lookup_insert.
Qed.

Lemma last_write_snoc (k : string) (results : list props) (row : props) :
  last_write k (results ++ [row]) =
    if decide (to_key (first_column row) = k) then Some (second_column row)
    else last_write k results.
Proof.
  unfold last_write. rewrite filter_app, filter_cons, filter_nil.
  destruct (decide (to_key (first_column row) = k)).
  - by rewrite last_snoc.
  - by rewrite app_nil_r.
Qed.

(** Last write wins for every key other than [__proto__]: after the loop, the
    map holds under [k] what the last row with first column [k] has in its
    second column, and nothing if there is no such row. *)
Lemma getMap_last_write_wins query params results w :
  Forall two_columns results →
  all db query params = Ok results →
  ∃ m, getMap db site query params w =
         (Ok m, World (log w) (calls w ++ [CallAll query params]))
       ∧ ∀ k, k ≠ "__proto__" → own m !! k = last_write k results.
Proof.
  intros Hwf H. eexists. split; [by apply getMap_ok|].
  intros k Hk. clear H. induction results as [|row results IH] using rev_ind.
  - reflexivity.
  - apply Forall_app in Hwf as [Hwf Hrow]. rewrite Forall_singleton in Hrow.
    rewrite foldl_snoc, last_write_snoc. rewrite own_obj_set by exact Hk.
    rewrite member_first. rewrite member_second by exact Hrow.
    destruct (decide (to_key (first_column row) = k)); [done|]. by apply IH.
Qed.

End Maps.

(** The example of the specification: rows [(k1,v1),(k1,v2)] give [{k1: v2}]. *)
Example getMap_duplicate_key :
  ∃ m w, getMap (answering [[("name", VStr "k1"); ("value", VStr "v1")];
                            [("name", VStr "k1"); ("value", VStr "v2")]] VNull)
           "at wrap" "SELECT name, value FROM options" [] start = (Ok m, w)
         ∧ own m = {[ "k1" := VStr "v2" ]}.
Proof.
  eexists _, _. split; [reflexivity|]. simpl. apply map_eq. intros k.
  unfold obj_set. simpl.
  destruct (decide (k = "k1")) as [->|Hk].
  - by rewrite lookup_insert_eq, lookup_singleton_eq.
  - by rewrite !lookup_insert_ne, lookup_empty, lookup_singleton_ne.
Qed.

(** C8.  First part: for the rows of any two-column query, the map that
    [getMap] returns holds, under every key other than [__proto__], the
    second column of the last row whose first column is that key (last write
    wins), and nothing if there is no such row; duplicates raise no error.
    Second part, the key [__proto__]: a row whose first column is the string
    [__proto__] leaves no entry in the map: the assignment at line 76 reaches
    the inherited accessor of the fresh [{}] and stores nothing.  Last write
    wins would map the key to ["dark"] on one such row and to ["v2"] on two;
    the returned map has no own property at all. *)
Theorem getMap_loses_proto_key (db : driver) (site : string) :
  (∀ (query : string) (params : list value) (results : list props) (w : world),
     Forall two_columns results →
     all db query params = Ok results →
     ∃ m, getMap db site query params w =
            (Ok m, World (log w) (calls w ++ [CallAll query params]))
          ∧ ∀ k, k ≠ "__proto__" → own m !! k = last_write k results)
  ∧ (let one := [[("name", VStr "__proto__"); ("value", VStr "dark")]] in
     let two := [[("name", VStr "__proto__"); ("value", VStr "v1")];
                 [("name", VStr "__proto__"); ("value", VStr "v2")]] in
     (∃ m w, getMap (answering one VNull) site "SELECT name, value FROM options"
               [] start = (Ok m, w)
             ∧ own m = ∅
             ∧ last_write "__proto__" one = Some (VStr "dark"))
     ∧ (∃ m w, getMap (answering two VNull) site "SELECT name, value FROM options"
                 [] start = (Ok m, w)
               ∧ own m = ∅
               ∧ last_write "__proto__" two = Some (VStr "v2"))).
Proof.
  split.
  - intros query params results w Hwf Hall. by apply getMap_last_write_wins.
  - split; eexists _, _; (split; [reflexivity|]); split; reflexivity.
Qed.

End ExecutorFacts.

(** * Properties of the transaction coordinator *)

Module CoordinatorFacts.
Import Coordinator.

(** ** Traces *)

Section Traces.

Variable closes : event → bool.

Lemma open_from_app (o : bool) (l1 l2 : list event) :
  open_from closes o (l1 ++ l2) = open_from closes (open_from closes o l1) l2.
Proof. revert o. induction l1 as [|e l1 IH]; intros o; simpl; [done|apply IH]. Qed.

Lemma exclusive_from_app (o : bool) (l1 l2 : list event) :
  exclusive_from closes o (l1 ++ l2) =
    exclusive_from closes o l1 && exclusive_from closes (open_from closes o l1) l2.
Proof.
  revert o. induction l1 as [|e l1 IH]; intros o; simpl; [done|].
  destruct (begins e); [|apply IH]. rewrite IH. by rewrite andb_assoc.
Qed.

(** Events that begin nothing leave a closed trace closed and an exclusive
    trace exclusive. *)
Lemma open_from_quiet (l : list event) :
  Forall (λ e, begins e = false) l → open_from closes false l = false.
Proof.
  induction 1 as [|e l He _ IH]; simpl; [done|].
  rewrite He. by destruct (closes e).
Qed.

Lemma exclusive_from_quiet (o : bool) (l : list event) :
  Forall (λ e, begins e = false) l → exclusive_from closes o l = true.
Proof.
  intros H. revert o. induction H as [|e l He _ IH]; intros o; simpl; [done|].
  rewrite He. apply IH.
Qed.

Lemma open_after_snoc (tr l : list event) :
  Forall (λ e, begins e = false) l →
  open_after closes tr = false → open_after closes (tr ++ l) = false.
Proof.
  intros Hl H. unfold open_after in *. rewrite open_from_app, H.
  by apply open_from_quiet.
Qed.

Lemma exclusive_snoc (tr l : list event) :
  Forall (λ e, begins e = false) l →
  exclusive closes tr = true → exclusive closes (tr ++ l) = true.
Proof.
  intros Hl H. unfold exclusive in *. rewrite exclusive_from_app, H.
  by apply exclusive_from_quiet.
Qed.

Lemma exclusive_begin (tr : list event) (c : nat) :
  exclusive closes tr = true → open_after closes tr = false →
  exclusive closes (tr ++ [Issued c Begin]) = true.
Proof.
  intros H Ho. unfold exclusive, open_after in *.
  rewrite exclusive_from_app, H, Ho. reflexivity.
Qed.

Lemma open_after_closed (tr l : list event) (e : event) :
  begins e = false → closes e = true →
  open_after closes (tr ++ l ++ [e]) = false.
Proof.
  intros Hb Hc. unfold open_after. rewrite !open_from_app. simpl.
  by rewrite Hb, Hc.
Qed.

(** A transaction that is open stays open until an event closes it. *)
Lemma open_from_closed (l : list event) :
  open_from closes true l = false → ∃ e, e ∈ l ∧ closes e = true.
Proof.
  induction l as [|e l IH]; simpl; [done|].
  destruct (begins e) eqn:Hb.
  - intros H. destruct (IH H) as (e' & Hin & Hc). exists e'. split; [by right|done].
  - destruct (closes e) eqn:Hc.
    + intros _. exists e. split; [by left|done].
    + intros H. destruct (IH H) as (e' & Hin & Hc'). exists e'. split; [by right|done].
Qed.

(** The checker implies the property in the words of the specification. *)
Lemma exclusive_mutual_exclusion (tr : list event) :
  exclusive closes tr = true → mutual_exclusion closes tr.
Proof.
  intros H t1 c1 t2 c2 t3 ->. unfold exclusive in H.
  rewrite exclusive_from_app in H. apply andb_true_iff in H as [_ H].
  simpl in H. apply andb_true_iff in H as [_ H].
  rewrite exclusive_from_app in H. apply andb_true_iff in H as [_ H].
  simpl in H. apply andb_true_iff in H as [H _].
  apply negb_true_iff in H. by apply open_from_closed.
Qed.

End Traces.

(** ** The statements of the machine are [execute] calls *)

(** The machine ends a statement as [Executor.execute] does: on the answer
    the driver gives, both yield the same value or error and add the same
    entries to the log. *)
Lemma wrapped_execute (db : driver) (site q : string) (ps : list value)
    (w : Executor.world) (s : state) :
  (Executor.execute db site q ps w).1 = (wrapped site (run db q ps) s).1
  ∧ ∃ extra,
      Executor.log (Executor.execute db site q ps w).2 = Executor.log w ++ extra
      ∧ log (wrapped site (run db q ps) s).2 = log s ++ extra.
Proof.
  destruct (run db q ps) as [info|e] eqn:Hd.
  - rewrite (ExecutorFacts.execute_ok _ _ _ _ _ _ Hd). simpl.
    split; [done|]. exists []. by rewrite !app_nil_r.
  - rewrite (ExecutorFacts.execute_thrown _ _ _ _ _ _ Hd). simpl.
    split; [done|]. by eexists.
Qed.

(** ** One step *)

Section Steps.

Variable site : string.
Variable tx_site : string.

Lemma step_effect (c : nat) (d : result run_info) (s s' : state) :
  step site tx_site c d s = Some s' →
  ∃ ch ch' evs,
    chains s !! c = Some ch
    ∧ chains s' = <[c:=ch']> (chains s)
    ∧ trace s' = trace s ++ evs
    ∧ effect c s s' ch ch' evs.
Proof.
  unfold step. destruct (chains s !! c) as [ch|] eqn:Hch; simpl; [|done].
  destruct ch as [flag ct fs]. simpl.
  intros H. exists (Chain flag ct fs).
  unfold finish, doInTransaction, enter, catch_block, wrapped in H.
  destruct d as [info|de]; simpl in H.
  all: repeat match type of H with
         | context [match ?x with _ => _ end] => destruct x eqn:?; simpl in H
         end.
  all: simplify_eq.
  all: eexists _, _; (split; [reflexivity|]); (split; [simpl; reflexivity|]).
  all: simpl; rewrite <- ?app_assoc; simpl.
  all: try (split; [reflexivity|]).
  all: try (split; [symmetry; apply app_nil_r|]).
  all: unfold effect, owners; simpl.
  all: first
    [ left; by split_and!; try lia; repeat constructor
    | right; left; split_and!; try done; try lia; try (by repeat constructor);
      first [by eexists [], _ | by eexists [_], _]
    | right; right; left; by split_and!
    | right; right; right; split_and!; try done; by eexists ].
Qed.

Lemma lookup_set (chs : list chain) (c c0 : nat) (ch ch' x : chain) :
  chs !! c = Some ch →
  <[c:=ch']> chs !! c0 = Some x →
  (c0 = c ∧ x = ch') ∨ (c0 ≠ c ∧ chs !! c0 = Some x).
Proof.
  intros Hc H. destruct (decide (c0 = c)) as [->|Hne].
  - left. rewrite list_lookup_insert_eq in H by (by eapply lookup_lt_Some).
    by simplify_eq.
  - right. by rewrite list_lookup_insert_ne in H.
Qed.

Lemma lookup_set_eq (chs : list chain) (c : nat) (ch ch' : chain) :
  chs !! c = Some ch → <[c:=ch']> chs !! c = Some ch'.
Proof. intros Hc. apply list_lookup_insert_eq. by eapply lookup_lt_Some. Qed.

Lemma owners_closing (ch : chain) : closing (ctl ch) = true → 0 < owners ch.
Proof. unfold owners. destruct (ctl ch); simpl; (done || lia). Qed.

(** The invariant is kept by every step. *)
Lemma step_invariant (c : nat) (d : result run_info) (s s' : state) :
  invariant s → step site tx_site c d s = Some s' → invariant s'.
Proof.
  intros (Hx1 & Hx2 & Hown) Hstep.
  destruct (step_effect _ _ _ _ Hstep) as (ch & ch' & evs & Hch & Hchs & Htr & Heff).
  unfold invariant. rewrite Htr.
  destruct Heff as [(Hact & Ho & _ & Hev & Hcl)
                   |[(Hact & Ho & Hpos & Hcl & Hev & pre & e & -> & He)
                   |[(Hfree & Hact & Ho & Hcl & ->)
                   |(Hcl & Ho & e & -> & Hb & He & Hi)]]].
  - (* ownership untouched *)
    assert (Hnb : Forall (λ e, begins e = false) evs)
      by (eapply Forall_impl; [exact Hev|]; by intros ? (? & _)).
    split_and!; [by apply exclusive_snoc|by apply exclusive_snoc|].
    destruct Hown as [(Hq & Ho1 & Ho2)|(c0 & Ha & (ch0 & Hch0 & Hown0 & Hclo) & Hoth)].
    + left. split_and!; [|by apply open_after_snoc|by apply open_after_snoc].
      intros c1 x Hx. rewrite Hchs in Hx.
      destruct (lookup_set _ _ _ _ _ _ Hch Hx) as [[-> ->]|[_ Hx']].
      * rewrite Ho. by eapply Hq.
      * by eapply Hq.
    + right. exists c0. unfold held_by. rewrite Hact, Hchs, Htr.
      split_and!; [done| |].
      * destruct (decide (c0 = c)) as [->|Hne].
        -- exists ch'. assert (ch0 = ch) as -> by congruence.
           split_and!; [by eapply lookup_set_eq|lia|].
           intros Hc'. apply open_after_snoc; [done|]. auto.
        -- exists ch0. rewrite list_lookup_insert_ne by done.
           split_and!; [done|done|]. intros Hc'. apply open_after_snoc; auto.
      * intros c1 x Hne Hx.
        destruct (lookup_set _ _ _ _ _ _ Hch Hx) as [[-> ->]|[_ Hx']].
        -- rewrite Ho. by eapply Hoth.
        -- by eapply Hoth.
  - (* the executor issues the closing statement *)
    assert (Hnb : Forall (λ e, begins e = false) (pre ++ [e]))
      by (eapply Forall_impl; [exact Hev|]; by intros ? (? & _)).
    split_and!; [by apply exclusive_snoc|by apply exclusive_snoc|].
    destruct Hown as [(Hq & Ho1 & Ho2)|(c0 & Ha & (ch0 & Hch0 & Hown0 & Hclo) & Hoth)].
    + specialize (Hq _ _ Hch). lia.
    + right. exists c0. unfold held_by. rewrite Hact, Hchs, Htr.
      destruct (decide (c0 = c)) as [->|Hne];
        [|specialize (Hoth _ _ (not_eq_sym Hne) Hch); lia].
      assert (ch0 = ch) as -> by congruence.
      split_and!; [done| |].
      * exists ch'. split_and!; [by eapply lookup_set_eq|lia|].
        intros _. apply open_after_closed; [|done].
        apply Forall_app in Hnb as [_ Hnb]. by rewrite Forall_singleton in Hnb.
      * intros c1 x Hne Hx.
        destruct (lookup_set _ _ _ _ _ _ Hch Hx) as [[-> _]|[_ Hx']]; [done|].
        by eapply Hoth.
  - (* the slot is taken *)
    destruct Hown as [(Hq & Ho1 & Ho2)|(c0 & Ha & _)]; [|congruence].
    split_and!; [by apply exclusive_begin|by apply exclusive_begin|].
    right. exists c. unfold held_by. rewrite Hact, Hchs, Htr.
    split_and!; [done| |].
    + exists ch'. split_and!; [by eapply lookup_set_eq| |by rewrite Hcl].
      rewrite Ho, (Hq _ _ Hch). done.
    + intros c1 x Hne Hx.
      destruct (lookup_set _ _ _ _ _ _ Hch Hx) as [[-> _]|[_ Hx']]; [done|].
      by eapply Hq.
  - (* the transaction ends *)
    assert (Hnb : Forall (λ e, begins e = false) [e]) by (by constructor).
    split_and!; [by apply exclusive_snoc|by apply exclusive_snoc|].
    destruct Hown as [(Hq & Ho1 & Ho2)|(c0 & Ha & (ch0 & Hch0 & Hown0 & Hclo) & Hoth)].
    + specialize (Hq _ _ Hch). apply owners_closing in Hcl. lia.
    + destruct (decide (c0 = c)) as [->|Hne];
        [|specialize (Hoth _ _ (not_eq_sym Hne) Hch); apply owners_closing in Hcl; lia].
      assert (ch0 = ch) as -> by congruence.
      left. split_and!.
      * intros c1 x Hx. rewrite Hchs in Hx.
        destruct (lookup_set _ _ _ _ _ _ Hch Hx) as [[-> ->]|[Hne Hx']]; [lia|].
        by eapply Hoth.
      * by apply (open_after_closed ends (trace s) []).
      * apply open_after_snoc; auto.
Qed.

Lemma boot_invariant (codes : list prog) : invariant (boot codes).
Proof.
  split_and!; [done|done|]. left. split_and!; [|done|done].
  intros c ch Hc. unfold boot in Hc. simpl in Hc.
  rewrite list_lookup_fmap in Hc.
  destruct (codes !! c) as [code|]; simpl in Hc; by simplify_eq.
Qed.

(** The invariant holds after every schedule. *)
Lemma run_invariant (sched : list (nat * result run_info)) (s s' : state) :
  invariant s → play site tx_site sched s = Some s' → invariant s'.
Proof.
  revert s. induction sched as [|[c d] sched IH]; intros s Hinv H; simpl in H.
  - by simplify_eq.
  - destruct (step site tx_site c d s) as [s1|] eqn:Hs; [|done].
    eapply IH; [|exact H]. by eapply step_invariant.
Qed.

(** A schedule in two parts. *)
Lemma run_app (l1 l2 : list (nat * result run_info)) (s s1 : state) :
  play site tx_site l1 s = Some s1 →
  play site tx_site (l1 ++ l2) s = play site tx_site l2 s1.
Proof.
  revert s. induction l1 as [|[c d] l1 IH]; intros s H; simpl in *.
  - by simplify_eq.
  - destruct (step site tx_site c d s) as [s'|]; [by apply IH|done].
Qed.

End Steps.

(** The invariant after any schedule from the start of the process. *)
Lemma boot_run_invariant (site tx_site : string) (codes : list prog)
    (sched : list (nat * result run_info)) (s : state) :
  play site tx_site sched (boot codes) = Some s → invariant s.
Proof. apply run_invariant, boot_invariant. Qed.

Lemma invariant_open_active (s : state) :
  invariant s → open_after ends (trace s) = true → transactionActive s = true.
Proof.
  intros (_ & _ & [(_ & Ho & _)|(c & Ha & _)]) H; [congruence|done].
Qed.

Lemma invariant_one_owner (s : state) (c1 c2 : nat) (ch1 ch2 : chain) :
  invariant s →
  chains s !! c1 = Some ch1 → chains s !! c2 = Some ch2 →
  0 < owners ch1 → 0 < owners ch2 → c1 = c2.
Proof.
  intros (_ & _ & [(Hq & _)|(c & _ & _ & Hoth)]) H1 H2 Ho1 Ho2.
  - specialize (Hq _ _ H1). lia.
  - destruct (decide (c1 = c)) as [->|Hn1].
    + destruct (decide (c2 = c)) as [->|Hn2]; [done|].
      specialize (Hoth _ _ Hn2 H2). lia.
    + specialize (Hoth _ _ Hn1 H1). lia.
Qed.

(** C1.  Mutual exclusion.  Take any number of call chains, each running any
    code from outside a transaction, and any interleaving of their segments
    with any answers of the driver.  In the trace of statements, between two
    BEGIN statements of the coordinator a COMMIT or ROLLBACK has been issued,
    and a COMMIT has completed or a ROLLBACK has settled.  Whenever a
    transaction is open (BEGIN issued, no COMMIT completed and no ROLLBACK
    settled since), [transactionActive] is true.  At most one chain is the
    owner of a transaction. *)
Theorem mutual_exclusion_holds (site tx_site : string) (codes : list prog)
    (sched : list (nat * result run_info)) (s : state) :
  play site tx_site sched (boot codes) = Some s →
  mutual_exclusion ends_issued (trace s)
  ∧ mutual_exclusion ends (trace s)
  ∧ (open_after ends (trace s) = true → transactionActive s = true)
  ∧ (∀ c1 c2 ch1 ch2,
       chains s !! c1 = Some ch1 → chains s !! c2 = Some ch2 →
       0 < owners ch1 → 0 < owners ch2 → c1 = c2).
Proof.
  intros Hrun. pose proof (boot_run_invariant _ _ _ _ _ Hrun) as Hinv.
  split_and!.
  - apply exclusive_mutual_exclusion, Hinv.
  - apply exclusive_mutual_exclusion, Hinv.
  - by apply invariant_open_active.
  - intros c1 c2 ch1 ch2. by apply invariant_one_owner.
Qed.

(** C1 on two chains that contend for the slot. *)
Lemma mutual_exclusion_holds_witness :
  ∃ s, play "at wrap" "at doInTransaction" one_after_the_other (boot two_inserts) = Some s
       ∧ trace s =
           [Issued 0 Begin; Completed 0 Begin true;
            Issued 0 (Query "INSERT INTO notes(noteId) VALUES (?)");
            Completed 0 (Query "INSERT INTO notes(noteId) VALUES (?)") true;
            Issued 0 Commit; Completed 0 Commit true;
            Issued 1 Begin; Completed 1 Begin true;
            Issued 1 (Query "INSERT INTO notes(noteId) VALUES (?)");
            Completed 1 (Query "INSERT INTO notes(noteId) VALUES (?)") true;
            Issued 1 Commit; Completed 1 Commit true]
       ∧ (mutual_exclusion ends_issued (trace s)
          ∧ mutual_exclusion ends (trace s)
          ∧ (open_after ends (trace s) = true → transactionActive s = true)
          ∧ (∀ c1 c2 ch1 ch2,
               chains s !! c1 = Some ch1 → chains s !! c2 = Some ch2 →
               0 < owners ch1 → 0 < owners ch2 → c1 = c2)).
Proof.
  eexists. split; [vm_compute; reflexivity|]. split; [reflexivity|].
  apply (mutual_exclusion_holds "at wrap" "at doInTransaction" two_inserts
           one_after_the_other).
  vm_compute. reflexivity.
Defined.

(** ** A slot that stays active *)

Section Stuck.

Variable site : string.
Variable tx_site : string.

(** Once the slot is stuck, a step changes nothing about it: no chain takes
    it, no promise is created or settled, no BEGIN is issued. *)
Lemma stuck_step (c : nat) (d : result run_info) (s s' : state) :
  stuck s → step site tx_site c d s = Some s' →
  stuck s' ∧ promises s' = promises s
  ∧ (∃ ch ch', chains s !! c = Some ch ∧ chains s' = <[c:=ch']> (chains s))
  ∧ ∃ evs, trace s' = trace s ++ evs ∧ Forall (λ e, begins e = false) evs.
Proof.
  intros [Hq Ha] Hstep.
  destruct (step_effect _ _ _ _ _ _ Hstep) as (ch & ch' & evs & Hch & Hchs & Htr & Heff).
  pose proof (Hq _ _ Hch) as Hzero.
  destruct Heff as [(Hact & Ho & Hp & Hev & _)
                   |[(_ & _ & Hpos & _)
                   |[(Hfree & _)
                   |(Hcl & _)]]].
  - split_and!; [split| | |]; [|congruence|done|by eauto|].
    + intros c1 x Hx. rewrite Hchs in Hx.
      destruct (lookup_set _ _ _ _ _ _ Hch Hx) as [[-> ->]|[_ Hx']]; [lia|].
      by eapply Hq.
    + exists evs. split; [done|]. eapply Forall_impl; [exact Hev|]. by intros ? (? & _).
  - lia.
  - congruence.
  - apply owners_closing in Hcl. lia.
Qed.

(** A chain suspended on a pending promise cannot run. *)
Lemma blocked_step (c p : nat) (d : result run_info) (s : state) (ch : chain) :
  chains s !! c = Some ch → waits_for (ctl ch) = Some p →
  promises s !! p = Some Pending →
  step site tx_site c d s = None.
Proof.
  intros Hch Hw Hp. unfold step. rewrite Hch. simpl.
  destruct (ctl ch) as [| |[p'|] ? ?| | | |[p'|] ? ?]; simpl in Hw; simplify_eq;
    unfold awaited; by rewrite Hp.
Qed.

(** A stuck slot stays stuck whatever runs, and no BEGIN is issued again. *)
Lemma stuck_run (sched : list (nat * result run_info)) (s s' : state) :
  stuck s → play site tx_site sched s = Some s' →
  stuck s' ∧ promises s' = promises s
  ∧ ∃ evs, trace s' = trace s ++ evs ∧ Forall (λ e, begins e = false) evs.
Proof.
  revert s. induction sched as [|[c d] sched IH]; intros s Hs H; simpl in H.
  - simplify_eq. split_and!; [done|done|]. exists []. by rewrite app_nil_r.
  - destruct (step site tx_site c d s) as [s1|] eqn:Hstep; [|done].
    destruct (stuck_step _ _ _ _ Hs Hstep) as (Hs1 & Hp1 & _ & evs1 & Ht1 & He1).
    destruct (IH _ Hs1 H) as (Hs' & Hp' & evs & Ht & He).
    split_and!; [done|congruence|].
    exists (evs1 ++ evs). rewrite Ht, Ht1, app_assoc. split; [done|].
    by apply Forall_app.
Qed.

(** A chain that waits for a promise of a stuck process waits for ever. *)
Lemma blocked_run (sched : list (nat * result run_info)) (s s' : state)
    (c p : nat) (ch : chain) :
  stuck s → chains s !! c = Some ch → waits_for (ctl ch) = Some p →
  promises s !! p = Some Pending →
  play site tx_site sched s = Some s' →
  chains s' !! c = Some ch ∧ promises s' !! p = Some Pending.
Proof.
  revert s. induction sched as [|[c1 d] sched IH]; intros s Hs Hch Hw Hp H; simpl in H.
  - by simplify_eq.
  - destruct (step site tx_site c1 d s) as [s1|] eqn:Hstep; [|done].
    destruct (decide (c1 = c)) as [->|Hne].
    { by rewrite (blocked_step _ _ _ _ _ Hch Hw Hp) in Hstep. }
    destruct (stuck_step _ _ _ _ Hs Hstep) as (Hs1 & Hp1 & (x & x' & _ & Hchs) & _).
    apply (IH s1); [done| |done|congruence|done].
    rewrite Hchs. by rewrite list_lookup_insert_ne.
Qed.

End Stuck.

(** The chains of a process at start own nothing. *)
Lemma boot_chain_idle (codes : list prog) (c : nat) (ch : chain) :
  ((λ code, Chain false (Running code) []) <$> codes) !! c = Some ch →
  owners ch = 0.
Proof.
  rewrite list_lookup_fmap.
  destruct (codes !! c) as [code|]; simpl; intros; by simplify_eq.
Qed.

(** ** The end of a transaction, from any state *)

Section Ending.

Variable site : string.
Variable tx_site : string.

(** Under the invariant, a chain that owns a transaction is the only one,
    owns one, and the slot is marked active. *)
Lemma invariant_owner (s : state) (c : nat) (ch : chain) :
  invariant s → chains s !! c = Some ch → 0 < owners ch →
  transactionActive s = true ∧ owners ch = 1
  ∧ ∀ c' ch', c' ≠ c → chains s !! c' = Some ch' → owners ch' = 0.
Proof.
  intros (_ & _ & [(Hq & _)|(c0 & Ha & (ch0 & Hch0 & Ho0 & _) & Hoth)]) Hch Hpos.
  - specialize (Hq _ _ Hch). lia.
  - destruct (decide (c = c0)) as [->|Hne].
    + assert (ch0 = ch) as -> by congruence. done.
    + specialize (Hoth _ _ Hne Hch). lia.
Qed.

(** When the only owner gives up ownership and the slot stays marked active,
    the process is stuck. *)
Lemma owner_gone_stuck (s s1 : state) (c : nat) (ch ch1 : chain) :
  invariant s → chains s !! c = Some ch → 0 < owners ch →
  chains s1 = <[c:=ch1]> (chains s) → owners ch1 = 0 →
  transactionActive s1 = true →
  stuck s1.
Proof.
  intros Hinv Hch Hpos Hchs Hown1 Ha.
  destruct (invariant_owner _ _ _ Hinv Hch Hpos) as (_ & _ & Hoth).
  split; [|done]. intros c' x Hx. rewrite Hchs in Hx.
  destruct (lookup_set _ _ _ _ _ _ Hch Hx) as [[-> ->]|[Hne Hx']]; [done|].
  by eapply Hoth.
Qed.

(** The function of the owner throws [e] and the ROLLBACK is fulfilled
    (lines 151-166): one ROLLBACK, one log entry, the slot is idle, the
    promise is rejected with [e], and the code that awaits the call resumes
    with [e]. *)
Lemma throw_then_rollback (c p : nat) (s : state) (flag : bool) (e : jserror)
    (k : result value → prog) (fs : list frame) (info : run_info)
    (d1 d2 : result run_info) :
  chains s !! c = Some (Chain flag (Running (Throw e)) (Owner p k :: fs)) →
  promises s !! p = Some Pending →
  ∃ s', play site tx_site [(c, d1); (c, Ok info); (c, d2)] s = Some s'
        ∧ trace s' = trace s ++ [Issued c Rollback; Completed c Rollback true]
        ∧ log s' = log s ++ [rollback_log e tx_site]
        ∧ transactionActive s' = false
        ∧ promises s' = <[p:=Rejected e]> (promises s)
        ∧ chains s' = <[c:=Chain false (Running (k (Thrown e))) fs]> (chains s).
Proof.
  intros Hch Hp.
  pose proof (lookup_lt_Some _ _ _ Hch) as Hlt.
  pose proof (lookup_lt_Some _ _ _ Hp) as Hltp.
  unfold play, step. rewrite Hch. simpl.
  rewrite list_lookup_insert_eq by done. simpl.
  rewrite list_lookup_insert_eq by (by rewrite ?length_insert). simpl.
  unfold awaited. simpl. rewrite (list_lookup_insert_eq (promises s)) by done.
  eexists. split; [reflexivity|]. simpl.
  rewrite <- !app_assoc, !list_insert_insert_eq. by split_and!.
Qed.

(** The function of the owner throws [e] and the ROLLBACK is rejected with
    [x] (lines 151-154, then the [finally] block): both errors are logged,
    the flag is cleared, but the slot and the promise are as before, and the
    outer function waits at line 166. *)
Lemma throw_then_rollback_rejected (c p : nat) (s : state) (flag : bool)
    (e x : jserror) (k : result value → prog) (fs : list frame)
    (d1 : result run_info) :
  chains s !! c = Some (Chain flag (Running (Throw e)) (Owner p k :: fs)) →
  ∃ s', play site tx_site [(c, d1); (c, Thrown x)] s = Some s'
        ∧ trace s' = trace s ++ [Issued c Rollback; Completed c Rollback false]
        ∧ log s' = log s ++ [rollback_log e tx_site; Executor.wrap_log x site]
        ∧ transactionActive s' = transactionActive s
        ∧ promises s' = promises s
        ∧ chains s' = <[c:=Chain false (AwaitOwn (Some p) VNull k) fs]> (chains s).
Proof.
  intros Hch.
  pose proof (lookup_lt_Some _ _ _ Hch) as Hlt.
  unfold play, step. rewrite Hch. simpl.
  rewrite list_lookup_insert_eq by done. simpl.
  eexists. split; [reflexivity|]. simpl.
  rewrite <- !app_assoc, !list_insert_insert_eq. by split_and!.
Qed.

(** The COMMIT of the owner is rejected with [y] (line 146, then 151-154):
    [wrap] logs and replaces the error, the [catch] block logs it again and
    issues ROLLBACK. *)
Lemma commit_rejected (c p : nat) (s : state) (flag : bool) (ret : value)
    (y : jserror) (k : result value → prog) (fs : list frame) :
  chains s !! c = Some (Chain flag (AwaitCommit p ret k) fs) →
  step site tx_site c (Thrown y) s =
    Some (State (transactionActive s) (transactionPromise s) (promises s)
            (<[c:=Chain flag (AwaitRollback p ret (Executor.wrap_error y site) k) fs]>
               (chains s))
            (log s ++ [Executor.wrap_log y site;
                       rollback_log (Executor.wrap_error y site) tx_site])
            (trace s ++ [Completed c Commit false; Issued c Rollback])).
Proof.
  intros Hch. unfold step. rewrite Hch. simpl.
  unfold catch_block, set_chain. simpl. by rewrite <- !app_assoc.
Qed.

(** The ROLLBACK of the owner settles (line 154 on): fulfilled, the slot is
    freed, the promise is rejected with the caught error and the flag is
    cleared; rejected, only the flag is cleared. *)
Lemma rollback_fulfilled (c p : nat) (s : state) (flag : bool) (ret : value)
    (e : jserror) (k : result value → prog) (fs : list frame) (info : run_info) :
  chains s !! c = Some (Chain flag (AwaitRollback p ret e k) fs) →
  step site tx_site c (Ok info) s =
    Some (State false (transactionPromise s) (<[p:=Rejected e]> (promises s))
            (<[c:=Chain false (AwaitOwn (Some p) ret k) fs]> (chains s))
            (log s) (trace s ++ [Completed c Rollback true])).
Proof. intros Hch. unfold step. by rewrite Hch. Qed.

Lemma rollback_rejected (c p : nat) (s : state) (flag : bool) (ret : value)
    (e x : jserror) (k : result value → prog) (fs : list frame) :
  chains s !! c = Some (Chain flag (AwaitRollback p ret e k) fs) →
  step site tx_site c (Thrown x) s =
    Some (State (transactionActive s) (transactionPromise s) (promises s)
            (<[c:=Chain false (AwaitOwn (Some p) ret k) fs]> (chains s))
            (log s ++ [Executor.wrap_log x site])
            (trace s ++ [Completed c Rollback false])).
Proof. intros Hch. unfold step. by rewrite Hch. Qed.

(** After a rejected ROLLBACK of the owner, in a state the invariant holds
    of: the slot stays active, no BEGIN is issued again, and the outer
    function of the owner never resumes. *)
Lemma rollback_rejected_for_ever (c p : nat) (s s1 s' : state) (flag : bool)
    (ret : value) (e x : jserror) (k : result value → prog) (fs : list frame)
    (sched : list (nat * result run_info)) :
  invariant s →
  chains s !! c = Some (Chain flag (AwaitRollback p ret e k) fs) →
  promises s !! p = Some Pending →
  step site tx_site c (Thrown x) s = Some s1 →
  play site tx_site sched s1 = Some s' →
  transactionActive s' = true
  ∧ chains s' !! c = Some (Chain false (AwaitOwn (Some p) ret k) fs)
  ∧ promises s' !! p = Some Pending
  ∧ ∃ evs, trace s' = trace s1 ++ evs ∧ Forall (λ ev, begins ev = false) evs.
Proof.
  intros Hinv Hch Hp Hstep Hrun.
  rewrite (rollback_rejected _ _ _ _ _ _ _ _ _ Hch) in Hstep. simplify_eq.
  assert (Hpos : 0 < owners (Chain flag (AwaitRollback p ret e k) fs))
    by (unfold owners; simpl; lia).
  destruct (invariant_owner _ _ _ Hinv Hch Hpos) as (Ha & Hone & _).
  unfold owners in Hone. simpl in Hone.
  match type of Hrun with play _ _ _ ?s1 = _ => assert (Hstuck : stuck s1) end.
  { eapply owner_gone_stuck; [exact Hinv|exact Hch|exact Hpos|reflexivity| |exact Ha].
    unfold owners. simpl. lia. }
  destruct (stuck_run _ _ _ _ _ Hstuck Hrun) as ((_ & Ha') & _ & Hev).
  destruct (blocked_run site tx_site sched _ s' c p
              (Chain false (AwaitOwn (Some p) ret k) fs) Hstuck
              (lookup_set_eq _ _ _ _ Hch) eq_refl Hp Hrun) as [Hc' Hp'].
  by split_and!.
Qed.

End Ending.

(** ** The promise of the open transaction *)

Section Pending.

Variable site : string.
Variable tx_site : string.

Lemma frame_promise_owners (fs : list frame) (p : nat) :
  frame_promise fs = Some p → 0 < owner_frames fs.
Proof. induction fs as [|[k|q k] fs IH]; simpl; [done|auto|lia]. Qed.

Lemma owned_promise_owners (ch : chain) (p : nat) :
  owned_promise ch = Some p → 0 < owners ch.
Proof.
  unfold owned_promise, owners.
  destruct (ctl ch); simpl; try lia; intros H%frame_promise_owners; lia.
Qed.

Lemma step_promises (c : nat) (d : result run_info) (s s' : state) :
  step site tx_site c d s = Some s' →
  ∃ ch ch', chains s !! c = Some ch
            ∧ chains s' = <[c:=ch']> (chains s)
            ∧ promise_effect s s' ch ch'.
Proof.
  unfold step. destruct (chains s !! c) as [[flag ct fs]|] eqn:Hch; simpl; [|done].
  unfold finish, doInTransaction, enter, catch_block, wrapped.
  intros H. destruct d as [info|de]; simpl in H.
  all: repeat match type of H with
              | context [match ?x with _ => _ end] => destruct x eqn:?; simpl in H
              end.
  all: simplify_eq.
  all: eexists _, _; (split; [reflexivity|]); (split; [simpl; reflexivity|]).
  all: unfold promise_effect, owned_promise, owners; simpl.
  all: first
    [ left; by split_and!
    | right; left; by split_and!
    | right; right; split_and!; [done|done|];
      intros q Hq; first [done | by rewrite list_lookup_insert_ne by congruence] ].
Qed.

(** The promise of the open transaction stays pending until its owner ends
    the transaction. *)
Lemma step_owner_pending (c : nat) (d : result run_info) (s s' : state) :
  invariant s → owner_pending s →
  step site tx_site c d s = Some s' → owner_pending s'.
Proof.
  intros Hinv Hpend Hstep.
  destruct (step_promises _ _ _ _ Hstep) as (ch & ch' & Hch & Hchs & Heff).
  intros c1 ch1 p1 Hc1 Hown1. rewrite Hchs in Hc1.
  destruct Heff as [(Hp & Ho)|[(Hp & Ho)|(Hcl & Ho & Hp)]].
  - rewrite Hp.
    destruct (lookup_set _ _ _ _ _ _ Hch Hc1) as [[-> ->]|[_ Hx]].
    + eapply Hpend; [exact Hch|congruence].
    + by eapply Hpend.
  - rewrite Hp.
    destruct (lookup_set _ _ _ _ _ _ Hch Hc1) as [[-> ->]|[_ Hx]].
    + rewrite Ho in Hown1. simplify_eq. by rewrite list_lookup_middle.
    + apply lookup_app_l_Some. by eapply Hpend.
  - pose proof (owners_closing _ Hcl) as Hpos.
    destruct (invariant_owner _ _ _ Hinv Hch Hpos) as (_ & Hone & Hoth).
    destruct (lookup_set _ _ _ _ _ _ Hch Hc1) as [[-> ->]|[Hne Hx]].
    + apply owned_promise_owners in Hown1. lia.
    + apply owned_promise_owners in Hown1. specialize (Hoth _ _ Hne Hx). lia.
Qed.

Lemma run_owner_pending (sched : list (nat * result run_info)) (s s' : state) :
  invariant s → owner_pending s →
  play site tx_site sched s = Some s' → invariant s' ∧ owner_pending s'.
Proof.
  revert s. induction sched as [|[c d] sched IH]; intros s Hinv Hpend H; simpl in H.
  - by simplify_eq.
  - destruct (step site tx_site c d s) as [s1|] eqn:Hs; [|done].
    eapply IH; [| |exact H].
    + by eapply step_invariant.
    + by eapply step_owner_pending.
Qed.

(** Both invariants hold after any schedule from the start of the
    process. *)
Lemma boot_run_pending (codes : list prog) (sched : list (nat * result run_info))
    (s : state) :
  play site tx_site sched (boot codes) = Some s → invariant s ∧ owner_pending s.
Proof.
  apply run_owner_pending; [apply boot_invariant|].
  intros c ch p Hc Hown. unfold boot in Hc. simpl in Hc.
  apply boot_chain_idle in Hc. apply owned_promise_owners in Hown. lia.
Qed.

End Pending.

(** ** Endings of a transaction in reachable states *)

Section Reachable.

Variable site : string.
Variable tx_site : string.

(** The COMMIT of the owner is rejected with [y] and the ROLLBACK is
    fulfilled: the slot is freed and the code that awaits the call resumes
    with the error that [wrap] made of [y]. *)
Lemma commit_rejected_then_rollback (c p : nat) (s : state) (flag : bool)
    (ret : value) (y : jserror) (k : result value → prog) (fs : list frame)
    (info : run_info) (d : result run_info) :
  chains s !! c = Some (Chain flag (AwaitCommit p ret k) fs) →
  promises s !! p = Some Pending →
  ∃ s', play site tx_site [(c, Thrown y); (c, Ok info); (c, d)] s = Some s'
        ∧ trace s' = trace s ++ [Completed c Commit false; Issued c Rollback;
                                 Completed c Rollback true]
        ∧ log s' = log s ++ [Executor.wrap_log y site;
                             rollback_log (Executor.wrap_error y site) tx_site]
        ∧ transactionActive s' = false
        ∧ chains s' =
            <[c:=Chain false (Running (k (Thrown (Executor.wrap_error y site)))) fs]>
              (chains s).
Proof.
  intros Hch Hp.
  pose proof (lookup_lt_Some _ _ _ Hch) as Hlt.
  pose proof (lookup_lt_Some _ _ _ Hp) as Hltp.
  unfold play. rewrite (commit_rejected _ _ _ _ _ _ _ _ _ _ Hch).
  erewrite rollback_fulfilled; [|simpl; by apply lookup_set_eq with (ch := Chain flag (AwaitCommit p ret k) fs)].
  unfold step. simpl. rewrite list_lookup_insert_eq by (by rewrite ?length_insert).
  simpl. unfold awaited. simpl. rewrite (list_lookup_insert_eq (promises s)) by done.
  eexists. split; [reflexivity|]. simpl.
  rewrite <- !app_assoc, !list_insert_insert_eq. by split_and!.
Qed.

(** In a reachable state, the ROLLBACK of the owner is rejected: from then on
    the slot stays active, the promise stays pending, no BEGIN is issued, and
    the outer function of the owner never resumes. *)
Lemma reachable_rollback_rejected (codes : list prog)
    (sched0 : list (nat * result run_info)) (s : state) (c p : nat) (flag : bool)
    (ret : value) (e x : jserror) (k : result value → prog) (fs : list frame) :
  play site tx_site sched0 (boot codes) = Some s →
  chains s !! c = Some (Chain flag (AwaitRollback p ret e k) fs) →
  ∃ s1, step site tx_site c (Thrown x) s = Some s1
        ∧ log s1 = log s ++ [Executor.wrap_log x site]
        ∧ trace s1 = trace s ++ [Completed c Rollback false]
        ∧ ∀ sched s', play site tx_site sched s1 = Some s' →
            transactionActive s' = true
            ∧ chains s' !! c = Some (Chain false (AwaitOwn (Some p) ret k) fs)
            ∧ promises s' !! p = Some Pending
            ∧ ∃ evs, trace s' = trace s1 ++ evs
                     ∧ Forall (λ ev, begins ev = false) evs.
Proof.
  intros Hrun Hch.
  destruct (boot_run_pending _ _ _ _ _ Hrun) as [Hinv Hpend].
  assert (Hp : promises s !! p = Some Pending) by (by eapply Hpend).
  eexists. split; [by eapply rollback_rejected|]. split_and!; [done|done|].
  intros sched s' Hrun'.
  eapply rollback_rejected_for_ever; [exact Hinv|exact Hch|exact Hp| |exact Hrun'].
  by eapply rollback_rejected.
Qed.

End Reachable.

(** The process is stuck once a chain of [boot (_ :: rest)] has left the slot
    active: that chain owns nothing any more, the others never did. *)
Ltac idle_chains c Hc :=
  simpl in Hc;
  first [ by eapply boot_chain_idle
        | destruct c as [|c]; [simpl in Hc; by simplify_eq|idle_chains c Hc] ].

Ltac stuck_boot :=
  split; [|reflexivity];
  let c := fresh "c" in
  let Hc := fresh "Hc" in
  intros c ? Hc; idle_chains c Hc.

(** C3 at a ROLLBACK that the driver rejects.
    First part, for any chains, code and schedule: whenever the executor of
    a chain awaits its ROLLBACK (after its function threw, or after its
    COMMIT or BEGIN was rejected) and the driver rejects it with [x], the
    executor ends at line 154 without reaching line 156: from then on, and
    whatever runs, [transactionActive] is true, the promise is pending and no
    BEGIN is issued.
    Second part, two such runs from the start: a chain runs a transaction
    next to any other chains [rest], [k] is the code that awaits it; its
    function throws [e], or returns and the COMMIT is rejected with [y]. *)
Theorem rollback_failure_leaves_slot_active (site tx_site : string) :
  (∀ (codes : list prog) (sched0 : list (nat * result run_info)) (s : state)
     (c p : nat) (flag : bool) (ret : value) (e x : jserror)
     (k : result value → prog) (fs : list frame),
     play site tx_site sched0 (boot codes) = Some s →
     chains s !! c = Some (Chain flag (AwaitRollback p ret e k) fs) →
     ∃ s1, step site tx_site c (Thrown x) s = Some s1
           ∧ ∀ sched s', play site tx_site sched s1 = Some s' →
               transactionActive s' = true
               ∧ promises s' !! p = Some Pending
               ∧ ∃ evs, trace s' = trace s1 ++ evs
                        ∧ Forall (λ ev, begins ev = false) evs)
  ∧ (∀ (rest : list prog) (k : result value → prog) (e x y : jserror) (v : value)
       (info : run_info) (d0 d2 : result run_info),
       (∃ s, play site tx_site [(0, d0); (0, Ok info); (0, d2); (0, Thrown x)]
               (boot (DoInTransaction (Throw e) k :: rest)) = Some s
             ∧ trace s = [Issued 0 Begin; Completed 0 Begin true;
                          Issued 0 Rollback; Completed 0 Rollback false]
             ∧ transactionActive s = true
             ∧ promises s = [Pending]
             ∧ ∀ sched s', play site tx_site sched s = Some s' →
                 transactionActive s' = true
                 ∧ promises s' = [Pending]
                 ∧ ∃ evs, trace s' = trace s ++ evs
                          ∧ Forall (λ ev, begins ev = false) evs)
       ∧ (∃ s, play site tx_site
                 [(0, d0); (0, Ok info); (0, d2); (0, Thrown y); (0, Thrown x)]
                 (boot (DoInTransaction (Return v) k :: rest)) = Some s
               ∧ trace s = [Issued 0 Begin; Completed 0 Begin true;
                            Issued 0 Commit; Completed 0 Commit false;
                            Issued 0 Rollback; Completed 0 Rollback false]
               ∧ transactionActive s = true
               ∧ promises s = [Pending]
               ∧ ∀ sched s', play site tx_site sched s = Some s' →
                   transactionActive s' = true
                   ∧ promises s' = [Pending]
                   ∧ ∃ evs, trace s' = trace s ++ evs
                            ∧ Forall (λ ev, begins ev = false) evs)).
Proof.
  split.
  - intros codes sched0 s c p flag ret e x k fs Hrun Hch.
    destruct (reachable_rollback_rejected site tx_site _ _ _ _ _ _ _ _ x _ _ Hrun Hch)
      as (s1 & Hstep & _ & _ & Hever).
    exists s1. split; [exact Hstep|].
    intros sched s' Hrun'. destruct (Hever _ _ Hrun') as (Ha & _ & Hp & Hev).
    by split_and!.
  - intros rest k e x y v info d0 d2. split.
    + eexists. split; [cbv; reflexivity|].
      split_and!; [reflexivity|reflexivity|reflexivity|].
      intros sched s' Hrun. apply stuck_run in Hrun as ((_ & Ha) & Hp & Hev).
      * split_and!; [exact Ha|exact Hp|exact Hev].
      * stuck_boot.
    + eexists. split; [cbv; reflexivity|].
      split_and!; [reflexivity|reflexivity|reflexivity|].
      intros sched s' Hrun. apply stuck_run in Hrun as ((_ & Ha) & Hp & Hev).
      * split_and!; [exact Ha|exact Hp|exact Hev].
      * stuck_boot.
Qed.

(** C4.  The function of a transaction throws [e]; [k] is the code that
    awaits [doInTransaction].
    First part, in any reachable state, whatever the function did before it
    threw: when the ROLLBACK is fulfilled, it was issued once, one entry was
    logged, the slot is idle again and [k] resumes with [e] itself.
    Second part, in any reachable state: when the ROLLBACK is rejected with
    [x], both errors are in the log, the second through [wrap]; but [k] never
    resumes, with [e] or anything else: the chain stays at line 166 whatever
    runs afterwards.
    Third part: the two cases in runs from the start, next to any other
    chains [rest]. *)
Theorem work_failure_outcome (site tx_site : string) :
  (∀ (codes : list prog) (sched0 : list (nat * result run_info)) (s : state)
     (c p : nat) (flag : bool) (e : jserror) (k : result value → prog)
     (fs : list frame) (info : run_info) (d1 d2 : result run_info),
     play site tx_site sched0 (boot codes) = Some s →
     chains s !! c = Some (Chain flag (Running (Throw e)) (Owner p k :: fs)) →
     ∃ s', play site tx_site [(c, d1); (c, Ok info); (c, d2)] s = Some s'
           ∧ trace s' = trace s ++ [Issued c Rollback; Completed c Rollback true]
           ∧ log s' = log s ++ [rollback_log e tx_site]
           ∧ transactionActive s' = false
           ∧ chains s' !! c = Some (Chain false (Running (k (Thrown e))) fs))
  ∧ (∀ (codes : list prog) (sched0 : list (nat * result run_info)) (s : state)
       (c p : nat) (flag : bool) (e x : jserror) (k : result value → prog)
       (fs : list frame) (d1 : result run_info),
       play site tx_site sched0 (boot codes) = Some s →
       chains s !! c = Some (Chain flag (Running (Throw e)) (Owner p k :: fs)) →
       ∃ s1, play site tx_site [(c, d1); (c, Thrown x)] s = Some s1
             ∧ log s1 = log s ++ [rollback_log e tx_site; Executor.wrap_log x site]
             ∧ ∀ sched s', play site tx_site sched s1 = Some s' →
                 transactionActive s' = true
                 ∧ chains s' !! c = Some (Chain false (AwaitOwn (Some p) VNull k) fs))
  ∧ (∀ (rest : list prog) (k : result value → prog) (e x : jserror)
       (info info' : run_info) (d0 d2 d4 : result run_info),
       (∃ s, play site tx_site [(0, d0); (0, Ok info); (0, d2); (0, Ok info'); (0, d4)]
               (boot (DoInTransaction (Throw e) k :: rest)) = Some s
             ∧ trace s = [Issued 0 Begin; Completed 0 Begin true;
                          Issued 0 Rollback; Completed 0 Rollback true]
             ∧ transactionActive s = false
             ∧ log s = [rollback_log e tx_site]
             ∧ chains s !! 0 = Some (Chain false (Running (k (Thrown e))) []))
       ∧ (∃ s, play site tx_site [(0, d0); (0, Ok info); (0, d2); (0, Thrown x)]
                 (boot (DoInTransaction (Throw e) k :: rest)) = Some s
               ∧ log s = [rollback_log e tx_site; Executor.wrap_log x site]
               ∧ ∀ sched s', play site tx_site sched s = Some s' →
                   transactionActive s' = true
                   ∧ chains s' !! 0 =
                       Some (Chain false (AwaitOwn (Some 0) VNull k) []))).
Proof.
  split_and!.
  - intros codes sched0 s c p flag e k fs info d1 d2 Hrun Hch.
    destruct (boot_run_pending site tx_site _ _ _ Hrun) as [_ Hpend].
    assert (Hp : promises s !! p = Some Pending) by (by eapply Hpend).
    destruct (throw_then_rollback site tx_site _ _ _ _ _ _ _ info d1 d2 Hch Hp)
      as (s' & Hrun' & Htr & Hlog & Ha & _ & Hchs).
    exists s'. split_and!; [done|done|done|done|].
    rewrite Hchs. by eapply lookup_set_eq.
  - intros codes sched0 s c p flag e x k fs d1 Hrun Hch.
    destruct (throw_then_rollback_rejected site tx_site _ _ _ _ _ x _ _ d1 Hch)
      as (s1 & Hrun1 & _ & Hlog & _).
    exists s1. split_and!; [done|done|].
    simpl in Hrun1.
    destruct (step site tx_site c d1 s) as [sm|] eqn:Hstep; [|done].
    assert (Hm : play site tx_site (sched0 ++ [(c, d1)]) (boot codes) = Some sm).
    { rewrite (run_app _ _ _ _ _ _ Hrun). simpl. by rewrite Hstep. }
    assert (Hchm : chains sm !! c = Some (Chain flag (AwaitRollback p VNull e k) fs)).
    { revert Hstep. unfold step. rewrite Hch. simpl. unfold finish, catch_block.
      simpl. intros ?; simplify_eq. simpl. by eapply lookup_set_eq. }
    destruct (reachable_rollback_rejected site tx_site _ _ _ _ _ _ _ _ x _ _ Hm Hchm)
      as (s1' & Hstep' & _ & _ & Hever).
    rewrite Hstep' in Hrun1. simplify_eq.
    intros sched s' Hrun'. destruct (Hever _ _ Hrun') as (Ha & Hc & _).
    by split.
  - intros rest k e x info info' d0 d2 d4. split.
    + eexists. split; [cbv; reflexivity|]. split_and!; reflexivity.
    + eexists. split; [cbv; reflexivity|]. split; [reflexivity|].
      intros sched s' Hrun. split.
      * apply stuck_run in Hrun as ((_ & Ha) & _); [exact Ha|stuck_boot].
      * eapply (blocked_run site tx_site sched _ s' 0 0) in Hrun as [Hch _];
          [exact Hch|stuck_boot|reflexivity|reflexivity|reflexivity].
Qed.

(** C10.  The function of a transaction returns [ret], and the COMMIT is
    rejected with [y]; [k] is the code that awaits [doInTransaction].
    First part, in any state: the executor logs the failure ([wrap]'s entry,
    then the entry of the [catch] block) and issues ROLLBACK.
    Second part, in any reachable state: when the ROLLBACK is fulfilled, the
    flag of the chain is cleared, the slot is idle, and [k] resumes with the
    error that [wrap] made of [y], not with [ret].
    Third part, in any reachable state: when the ROLLBACK is rejected with
    [x], the flag is cleared all the same, but [k] never resumes.
    Fourth part: the cases in runs from the start, next to any other chains
    [rest]. *)
Theorem commit_failure_outcome (site tx_site : string) :
  (∀ (c p : nat) (s : state) (flag : bool) (ret : value) (y : jserror)
     (k : result value → prog) (fs : list frame),
     chains s !! c = Some (Chain flag (AwaitCommit p ret k) fs) →
     step site tx_site c (Thrown y) s =
       Some (State (transactionActive s) (transactionPromise s) (promises s)
               (<[c:=Chain flag (AwaitRollback p ret (Executor.wrap_error y site) k) fs]>
                  (chains s))
               (log s ++ [Executor.wrap_log y site;
                          rollback_log (Executor.wrap_error y site) tx_site])
               (trace s ++ [Completed c Commit false; Issued c Rollback])))
  ∧ (∀ (codes : list prog) (sched0 : list (nat * result run_info)) (s : state)
       (c p : nat) (flag : bool) (ret : value) (y : jserror)
       (k : result value → prog) (fs : list frame) (info : run_info)
       (d : result run_info),
       play site tx_site sched0 (boot codes) = Some s →
       chains s !! c = Some (Chain flag (AwaitCommit p ret k) fs) →
       ∃ s', play site tx_site [(c, Thrown y); (c, Ok info); (c, d)] s = Some s'
             ∧ transactionActive s' = false
             ∧ chains s' !! c =
                 Some (Chain false
                         (Running (k (Thrown (Executor.wrap_error y site)))) fs))
  ∧ (∀ (codes : list prog) (sched0 : list (nat * result run_info)) (s : state)
       (c p : nat) (flag : bool) (ret : value) (x y : jserror)
       (k : result value → prog) (fs : list frame),
       play site tx_site sched0 (boot codes) = Some s →
       chains s !! c = Some (Chain flag (AwaitCommit p ret k) fs) →
       ∃ s1, play site tx_site [(c, Thrown y); (c, Thrown x)] s = Some s1
             ∧ chains s1 !! c = Some (Chain false (AwaitOwn (Some p) ret k) fs)
             ∧ ∀ sched s', play site tx_site sched s1 = Some s' →
                 transactionActive s' = true
                 ∧ chains s' !! c = Some (Chain false (AwaitOwn (Some p) ret k) fs))
  ∧ (∀ (rest : list prog) (k : result value → prog) (v : value) (x y : jserror)
       (info info' : run_info) (d0 d2 d5 : result run_info),
       (∃ s, play site tx_site [(0, d0); (0, Ok info); (0, d2); (0, Thrown y)]
               (boot (DoInTransaction (Return v) k :: rest)) = Some s
             ∧ trace s = [Issued 0 Begin; Completed 0 Begin true;
                          Issued 0 Commit; Completed 0 Commit false; Issued 0 Rollback]
             ∧ log s = [Executor.wrap_log y site;
                        rollback_log (Executor.wrap_error y site) tx_site])
       ∧ (∃ s, play site tx_site
                 [(0, d0); (0, Ok info); (0, d2); (0, Thrown y); (0, Ok info'); (0, d5)]
                 (boot (DoInTransaction (Return v) k :: rest)) = Some s
               ∧ transactionActive s = false
               ∧ chains s !! 0 =
                   Some (Chain false
                           (Running (k (Thrown (Executor.wrap_error y site)))) []))
       ∧ (∃ s, play site tx_site
                 [(0, d0); (0, Ok info); (0, d2); (0, Thrown y); (0, Thrown x)]
                 (boot (DoInTransaction (Return v) k :: rest)) = Some s
               ∧ ∀ sched s', play site tx_site sched s = Some s' →
                   transactionActive s' = true
                   ∧ chains s' !! 0 = Some (Chain false (AwaitOwn (Some 0) v k) []))).
Proof.
  split_and!.
  - intros. by eapply commit_rejected.
  - intros codes sched0 s c p flag ret y k fs info d Hrun Hch.
    destruct (boot_run_pending site tx_site _ _ _ Hrun) as [_ Hpend].
    assert (Hp : promises s !! p = Some Pending) by (by eapply Hpend).
    destruct (commit_rejected_then_rollback site tx_site _ _ _ _ _ y _ _ info d Hch Hp)
      as (s' & Hrun' & _ & _ & Ha & Hchs).
    exists s'. split_and!; [done|done|].
    rewrite Hchs. by eapply lookup_set_eq.
  - intros codes sched0 s c p flag ret x y k fs Hrun Hch.
    pose proof (commit_rejected site tx_site _ _ _ _ _ y _ _ Hch) as Hstep.
    match type of Hstep with _ = Some ?sm =>
      assert (Hm : play site tx_site (sched0 ++ [(c, Thrown y)]) (boot codes) = Some sm)
    end.
    { rewrite (run_app _ _ _ _ _ _ Hrun). simpl. by rewrite Hstep. }
    match type of Hm with _ = Some ?sm =>
      assert (Hchm : chains sm !! c =
                Some (Chain flag (AwaitRollback p ret (Executor.wrap_error y site) k) fs))
        by (simpl; by eapply lookup_set_eq)
    end.
    destruct (reachable_rollback_rejected site tx_site _ _ _ _ _ _ _ _ x _ _ Hm Hchm)
      as (s1 & Hstep1 & _ & _ & Hever).
    exists s1. split_and!.
    + simpl. by rewrite Hstep, Hstep1.
    + destruct (Hever [] s1 eq_refl) as (_ & Hc & _). exact Hc.
    + intros sched s' Hrun'. destruct (Hever _ _ Hrun') as (Ha & Hc & _). by split.
  - intros rest k v x y info info' d0 d2 d5. split_and!.
    + eexists. split; [cbv; reflexivity|]. split_and!; reflexivity.
    + eexists. split; [cbv; reflexivity|]. split_and!; reflexivity.
    + eexists. split; [cbv; reflexivity|].
      intros sched s' Hrun. split.
      * apply stuck_run in Hrun as ((_ & Ha) & _); [exact Ha|stuck_boot].
      * eapply (blocked_run site tx_site sched _ s' 0 0) in Hrun as [Hch _];
          [exact Hch|stuck_boot|reflexivity|reflexivity|reflexivity].
Qed.

(** A chain that waits for the slot (line 131) and wakes up on a rejected
    promise: the [await] throws the reason out of [doInTransaction]; the
    function [func] is dropped. *)
Lemma waiter_rejected (site tx_site : string) (c p : nat) (s : state)
    (flag : bool) (func : prog) (k : result value → prog) (fs : list frame)
    (e : jserror) (d : result run_info) :
  chains s !! c = Some (Chain flag (AwaitSlot (Some p) func k) fs) →
  promises s !! p = Some (Rejected e) →
  step site tx_site c d s =
    Some (set_chain c (Chain flag (Running (k (Thrown e))) fs) s).
Proof. intros Hch Hp. unfold step. rewrite Hch. simpl. by rewrite Hp. Qed.

(** A chain that waits for the slot and wakes up on a fulfilled promise while
    the slot is free: it takes the slot and issues its BEGIN. *)
Lemma waiter_fulfilled (site tx_site : string) (c p : nat) (s : state)
    (flag : bool) (func : prog) (k : result value → prog) (fs : list frame)
    (d : result run_info) :
  chains s !! c = Some (Chain flag (AwaitSlot (Some p) func k) fs) →
  promises s !! p = Some Fulfilled →
  transactionActive s = false →
  ∃ s', step site tx_site c d s = Some s'
        ∧ transactionActive s' = true
        ∧ trace s' = trace s ++ [Issued c Begin]
        ∧ chains s' = <[c:=Chain true (AwaitBegin (length (promises s)) func k) fs]>
                        (chains s).
Proof.
  intros Hch Hp Ha. unfold step. rewrite Hch. simpl. rewrite Hp.
  unfold enter. rewrite Ha. simpl. eexists. split_and!; reflexivity.
Qed.

(** C5.  Chain A and chain B both call [doInTransaction] from outside a
    transaction; A takes the slot first and B waits at line 131.
    First part, for any chains, code and schedule: a BEGIN is issued only
    after the COMMIT of the transaction before it has completed or its
    ROLLBACK has settled.
    Second part: a waiter that wakes up on a fulfilled promise with the slot
    free takes the slot and issues its BEGIN.
    Third part: a waiter that wakes up on a rejected promise does not
    proceed: its [doInTransaction] throws the reason of the rejection, and
    its function is never called.
    The rest places the three cases in runs of A (chain 0) and B (chain 1)
    next to any other chains; [w] is the function of B, [kA] and [kB] are
    the codes that await the two calls.  When A's function returns and its
    COMMIT is fulfilled, B issues its BEGIN after the completion of A's
    COMMIT.  When A's function throws [e] and the ROLLBACK is fulfilled, B
    wakes up with [e]: no BEGIN is issued for B.  When A's ROLLBACK is
    rejected, B waits for ever. *)
Theorem waiter_after_owner (site tx_site : string) :
  (∀ (codes : list prog) (sched : list (nat * result run_info)) (s : state),
     play site tx_site sched (boot codes) = Some s →
     mutual_exclusion ends (trace s))
  ∧ (∀ (c p : nat) (s : state) (flag : bool) (func : prog)
       (k : result value → prog) (fs : list frame) (d : result run_info),
       chains s !! c = Some (Chain flag (AwaitSlot (Some p) func k) fs) →
       promises s !! p = Some Fulfilled →
       transactionActive s = false →
       ∃ s', step site tx_site c d s = Some s'
             ∧ transactionActive s' = true
             ∧ trace s' = trace s ++ [Issued c Begin]
             ∧ chains s' =
                 <[c:=Chain true (AwaitBegin (length (promises s)) func k) fs]>
                   (chains s))
  ∧ (∀ (c p : nat) (s : state) (flag : bool) (func : prog)
       (k : result value → prog) (fs : list frame) (e : jserror)
       (d : result run_info),
       chains s !! c = Some (Chain flag (AwaitSlot (Some p) func k) fs) →
       promises s !! p = Some (Rejected e) →
       step site tx_site c d s =
         Some (set_chain c (Chain flag (Running (k (Thrown e))) fs) s))
  ∧ (∀ (rest : list prog) (w : prog) (kA kB : result value → prog) (v : value)
       (e x : jserror) (info info' : run_info) (d0 d1 d3 d4 d5 : result run_info),
       (∃ s, play site tx_site
               [(0, d0); (1, d1); (0, Ok info); (0, d3); (0, Ok info'); (0, d4); (1, d5)]
               (boot (DoInTransaction (Return v) kA :: DoInTransaction w kB :: rest))
             = Some s
             ∧ trace s = [Issued 0 Begin; Completed 0 Begin true;
                          Issued 0 Commit; Completed 0 Commit true; Issued 1 Begin]
             ∧ chains s !! 1 = Some (Chain true (AwaitBegin 1 w kB) []))
       ∧ (∃ s, play site tx_site
                 [(0, d0); (1, d1); (0, Ok info); (0, d3); (0, Ok info'); (0, d4); (1, d5)]
                 (boot (DoInTransaction (Throw e) kA :: DoInTransaction w kB :: rest))
               = Some s
               ∧ trace s = [Issued 0 Begin; Completed 0 Begin true;
                            Issued 0 Rollback; Completed 0 Rollback true]
               ∧ transactionActive s = false
               ∧ chains s !! 1 = Some (Chain false (Running (kB (Thrown e))) []))
       ∧ (∃ s, play site tx_site
                 [(0, d0); (1, d1); (0, Ok info); (0, d3); (0, Thrown x)]
                 (boot (DoInTransaction (Throw e) kA :: DoInTransaction w kB :: rest))
               = Some s
               ∧ ∀ sched s', play site tx_site sched s = Some s' →
                   chains s' !! 1 = Some (Chain false (AwaitSlot (Some 0) w kB) [])
                   ∧ ∃ evs, trace s' = trace s ++ evs
                            ∧ Forall (λ ev, begins ev = false) evs)).
Proof.
  split_and!.
  - intros codes sched s Hrun.
    apply exclusive_mutual_exclusion. by eapply boot_run_invariant.
  - intros. by eapply waiter_fulfilled.
  - intros. by eapply waiter_rejected.
  - intros. split_and!.
    + eexists. split; [cbv; reflexivity|]. split_and!; reflexivity.
    + eexists. split; [cbv; reflexivity|]. split_and!; reflexivity.
    + eexists. split; [cbv; reflexivity|].
      intros sched s' Hrun. split.
      * eapply (blocked_run site tx_site sched _ s' 1 0) in Hrun as [Hch _];
          [exact Hch|stuck_boot|reflexivity|reflexivity|reflexivity].
      * apply stuck_run in Hrun as (_ & _ & Hev); [exact Hev|stuck_boot].
Qed.

(** ** Callers below a running function *)

Section Frames.

Variable site : string.
Variable tx_site : string.

Lemma awaited_set_chain (c : nat) (ch : chain) (s : state) (p : option nat) :
  awaited (set_chain c ch s) p = awaited s p.
Proof. reflexivity. Qed.

(** A step never looks below the top frame of a chain: with more callers
    below the frames of chain [c], the same step is taken. *)
Lemma step_extend (c c' : nat) (extra : list frame) (d : result run_info)
    (s s' : state) :
  step site tx_site c' d s = Some s' →
  step site tx_site c' d (extend c extra s) = Some (extend c extra s').
Proof.
  intros Hstep. unfold extend.
  destruct (chains s !! c) as [ch0|] eqn:Hc0.
  2: { destruct (step_effect _ _ _ _ _ _ Hstep) as (ch & ch' & evs & Hch & Hchs & _).
       assert (chains s' !! c = None) as ->; [|done].
       rewrite Hchs. apply lookup_ge_None. rewrite length_insert.
       by apply lookup_ge_None. }
  pose proof (lookup_lt_Some _ _ _ Hc0) as Hlt.
  destruct (decide (c' = c)) as [->|Hne].
  - revert Hstep. unfold step. simpl. rewrite Hc0, list_lookup_insert_eq by done. simpl.
    destruct ch0 as [flag ct fs]. simpl.
    unfold finish, doInTransaction, enter, catch_block, wrapped.
    intros H.
    destruct d as [info|de]; simpl in *.
    all: repeat match type of H with
                | context [match ?x with _ => _ end] => destruct x eqn:?; simpl in *
                end.
    all: simplify_eq.
    all: simpl; rewrite ?list_lookup_insert_eq by (by rewrite ?length_insert); simpl.
    all: rewrite ?awaited_set_chain.
    all: repeat match goal with
                | Ha : awaited _ _ = _ |- _ => rewrite Ha; clear Ha
                end.
    all: unfold set_chain; simpl; rewrite !list_insert_insert_eq; reflexivity.
  - revert Hstep. unfold step. simpl. rewrite list_lookup_insert_ne by done.
    destruct (chains s !! c') as [[flag ct fs]|] eqn:Hc'; simpl; [|done].
    unfold finish, doInTransaction, enter, catch_block, wrapped.
    intros H.
    destruct d as [info|de]; simpl in *.
    all: repeat match type of H with
                | context [match ?x with _ => _ end] => destruct x eqn:?; simpl in *
                end.
    all: simplify_eq.
    all: simpl; rewrite ?list_lookup_insert_ne by done; rewrite ?Hc0; simpl.
    all: rewrite ?awaited_set_chain.
    all: repeat match goal with
                | Ha : awaited _ _ = _ |- _ => rewrite Ha; clear Ha
                end.
    all: unfold set_chain; simpl; rewrite (list_insert_insert_ne _ c c') by done; reflexivity.
Qed.

Lemma run_extend (c : nat) (extra : list frame)
    (sched : list (nat * result run_info)) (s s' : state) :
  play site tx_site sched s = Some s' →
  play site tx_site sched (extend c extra s) = Some (extend c extra s').
Proof.
  revert s. induction sched as [|[c' d] sched IH]; intros s H; simpl in *.
  - by simplify_eq.
  - destruct (step site tx_site c' d s) as [s1|] eqn:Hs; [|done].
    rewrite (step_extend _ _ _ _ _ _ Hs). by apply IH.
Qed.


(** The events of a step are events of the chain that takes it. *)
Lemma step_trace (c : nat) (d : result run_info) (s s' : state) :
  step site tx_site c d s = Some s' →
  ∃ evs, trace s' = trace s ++ evs ∧ Forall (λ e, by_chain c e = true) evs.
Proof.
  unfold step. destruct (chains s !! c) as [[flag ct fs]|] eqn:Hch; simpl; [|done].
  unfold finish, doInTransaction, enter, catch_block, wrapped.
  intros H. destruct d as [info|de]; simpl in H.
  all: repeat match type of H with
              | context [match ?x with _ => _ end] => destruct x eqn:?; simpl in H
              end.
  all: simplify_eq; simpl; rewrite <- ?app_assoc; simpl.
  all: first [ by exists []; rewrite app_nil_r
             | eexists; split; [reflexivity|];
               repeat constructor; simpl; by rewrite bool_decide_eq_true_2 ].
Qed.

(** A chain that has joined a transaction stays so and sends none of the
    coordinator's statements, whatever step is taken. *)
Lemma joined_step (c c' : nat) (d : result run_info) (s s' : state) :
  joined c s → step site tx_site c' d s = Some s' →
  joined c s' ∧ ∃ evs, trace s' = trace s ++ evs ∧ silent c evs.
Proof.
  intros (ch & Hch & Hflag & Hown & Hplain) Hstep.
  destruct (decide (c' = c)) as [->|Hne].
  - revert Hstep. unfold step. rewrite Hch. simpl.
    destruct ch as [flag ct fs]. unfold owners in Hown. simpl in *. subst flag.
    unfold finish, doInTransaction, joined, owners, silent. simpl.
    destruct ct as [[v|e|q ps k|func k]|q k| | | | |]; simpl in *; try done.
    + destruct fs as [|[k|p k] fs]; simpl in *; [done| |lia].
      intros; simplify_eq. simpl. split.
      * eexists. rewrite list_lookup_insert_eq by (by eapply lookup_lt_Some). done.
      * exists []. by rewrite app_nil_r.
    + destruct fs as [|[k|p k] fs]; simpl in *; [done| |lia].
      intros; simplify_eq. simpl. split.
      * eexists. rewrite list_lookup_insert_eq by (by eapply lookup_lt_Some). done.
      * exists []. by rewrite app_nil_r.
    + intros; simplify_eq. simpl. split.
      * eexists. rewrite list_lookup_insert_eq by (by eapply lookup_lt_Some). done.
      * eexists. split; [done|]. by repeat constructor.
    + intros; simplify_eq. simpl. split.
      * eexists. rewrite list_lookup_insert_eq by (by eapply lookup_lt_Some). done.
      * exists []. by rewrite app_nil_r.
    + unfold wrapped. destruct d as [info|de]; intros; simplify_eq; simpl; split.
      * eexists. rewrite list_lookup_insert_eq by (by eapply lookup_lt_Some). done.
      * eexists. split; [done|]. by repeat constructor.
      * eexists. rewrite list_lookup_insert_eq by (by eapply lookup_lt_Some). done.
      * eexists. split; [done|]. by repeat constructor.
  - destruct (step_effect _ _ _ _ _ _ Hstep) as (x & x' & _ & _ & Hchs & _).
    destruct (step_trace _ _ _ _ Hstep) as (evs & Htr & Hev).
    split.
    + exists ch. rewrite Hchs, list_lookup_insert_ne by done. done.
    + exists evs. split; [done|]. eapply Forall_impl; [exact Hev|].
      intros [c1 st|c1 st ok]; simpl; intros H1%bool_decide_eq_true H2%bool_decide_eq_true;
        congruence.
Qed.

Lemma joined_run (c : nat) (sched : list (nat * result run_info)) (s s' : state) :
  joined c s → play site tx_site sched s = Some s' →
  joined c s' ∧ ∃ evs, trace s' = trace s ++ evs ∧ silent c evs.
Proof.
  revert s. induction sched as [|[c' d] sched IH]; intros s Hj H; simpl in H.
  - simplify_eq. split; [done|]. exists []. rewrite app_nil_r. split; [done|constructor].
  - destruct (step site tx_site c' d s) as [s1|] eqn:Hs; [|done].
    destruct (joined_step _ _ _ _ _ Hj Hs) as (Hj1 & evs1 & Ht1 & He1).
    destruct (IH _ Hj1 H) as (Hj' & evs & Ht & He).
    split; [done|]. exists (evs1 ++ evs). rewrite Ht, Ht1, app_assoc.
    split; [done|]. by apply Forall_app.
Qed.

End Frames.

(** A reentrant call.  Chain [c] is inside a transaction ([isInTransaction]
    is set) and calls [doInTransaction(func)]; [k] is the code that awaits
    the call and [fs] are the callers below.  Suppose that the body of [func],
    run by chain [c] in place of the call and with no caller, ends with [r] (a
    value or an error) after the schedule [sched], in the process [s0].  Then
    the call itself, under the same schedule, hands [r] unchanged to [k] and
    leaves the process exactly as [func] alone left it: the same trace, log,
    slot, promises and other chains.  And chain [c] has sent no BEGIN, COMMIT
    or ROLLBACK in between: only the statements of [func] itself. *)
Lemma inline_call (site tx_site : string) (c : nat)
    (func : prog) (k : result value → prog) (fs : list frame) (s s0 : state)
    (sched : list (nat * result run_info)) (ch0 : chain) (r : result value)
    (d d' : result run_info) :
  chains s !! c = Some (Chain true (Running (DoInTransaction func k)) fs) →
  play site tx_site sched (set_chain c (Chain true (Running func) []) s) = Some s0 →
  chains s0 !! c = Some ch0 →
  outcome ch0 = Some r →
  play site tx_site ((c, d) :: sched ++ [(c, d')]) s =
    Some (set_chain c (Chain true (Running (k r)) fs) s0)
  ∧ ∃ evs, trace s0 = trace s ++ evs ∧ silent c evs.
Proof.
  intros Hch Hrun Hch0 Hout.
  pose proof (lookup_lt_Some _ _ _ Hch) as Hlt.
  assert (Hj : joined c (set_chain c (Chain true (Running func) []) s)).
  { eexists. simpl. rewrite list_lookup_insert_eq by done. done. }
  destruct (joined_run _ _ _ _ _ _ Hj Hrun) as ((x & Hx & Hflag & _) & Hsilent).
  assert (x = ch0) as -> by congruence.
  split; [|exact Hsilent].
  assert (Hfirst : step site tx_site c d s =
            Some (extend c (Inline k :: fs) (set_chain c (Chain true (Running func) []) s))).
  { unfold step, extend. rewrite Hch. simpl.
    rewrite list_lookup_insert_eq by done. unfold doInTransaction, set_chain. simpl.
    by rewrite list_insert_insert_eq. }
  simpl. rewrite Hfirst.
  rewrite (run_app _ _ _ _ _ _ (run_extend _ _ c (Inline k :: fs) _ _ _ Hrun)).
  simpl. unfold step, extend. rewrite Hch0. simpl.
  rewrite list_lookup_insert_eq by (by eapply lookup_lt_Some). simpl.
  destruct ch0 as [flag ct fs0]. simpl in Hflag. subst flag.
  unfold outcome in Hout. simpl in Hout. unfold finish. simpl.
  destruct ct as [[v|e| |]| | | | | |]; try done;
    destruct fs0; try done; simplify_eq; simpl;
    unfold set_chain; simpl; by rewrite list_insert_insert_eq.
Qed.

(** A transaction inside a transaction.  Chain 0 runs
    [doInTransaction(() => doInTransaction(func))] from outside a
    transaction.  Suppose that [func], run on its own inside the open
    transaction, returns [v] after the schedule [sched].  Then the whole runs
    under that schedule with one BEGIN before and one COMMIT after, and
    between the two chain 0 sends only the statements of [func]. *)
Lemma nested_call (site tx_site : string) (rest : list prog) (func : prog)
    (k : result value → prog) (sched : list (nat * result run_info))
    (s0 : state) (ch0 : chain) (v : value) (info info' : run_info)
    (d0 d2 d3 d4 : result run_info) :
  play site tx_site sched (opened func rest) = Some s0 →
  chains s0 !! 0 = Some ch0 →
  outcome ch0 = Some (Ok v) →
  ∃ s' evs,
    play site tx_site
        ([(0, d0); (0, Ok info); (0, d2)] ++ sched ++ [(0, d3); (0, d4); (0, Ok info')])
        (boot (DoInTransaction (DoInTransaction func pass) k :: rest)) = Some s'
    ∧ trace s' = [Issued 0 Begin; Completed 0 Begin true] ++ evs
                 ++ [Issued 0 Commit; Completed 0 Commit true]
    ∧ silent 0 evs
    ∧ transactionActive s' = false
    ∧ chains s' !! 0 = Some (Chain false (AwaitOwn (Some 0) v k) []).
Proof.
  intros Hrun Hch0 Hout.
  assert (Hj : joined 0 (opened func rest)) by (by eexists).
  destruct (joined_run _ _ _ _ _ _ Hj Hrun) as ((x & Hx & Hflag & _) & evs & Htr & Hsil).
  assert (x = ch0) as -> by congruence.
  destruct ch0 as [flag ct fs0]. simpl in Hflag. subst flag.
  unfold outcome in Hout. simpl in Hout.
  destruct ct as [[v'|e| |]| | | | | |]; try done; destruct fs0; simplify_eq.
  pose proof (lookup_lt_Some _ _ _ Hch0) as Hlt.
  eexists _, evs.
  rewrite (run_app site tx_site _ _ _
             (extend 0 [Inline pass; Owner 0 k] (opened func rest))) by reflexivity.
  rewrite (run_app _ _ _ _ _ _ (run_extend _ _ 0 [Inline pass; Owner 0 k] _ _ _ Hrun)).
  unfold play, step, extend. rewrite Hch0. simpl.
  rewrite !list_lookup_insert_eq by (by rewrite ?length_insert). simpl.
  rewrite !list_lookup_insert_eq by (by rewrite ?length_insert). simpl.
  rewrite !list_lookup_insert_eq by (by rewrite ?length_insert). simpl.
  split; [reflexivity|]. simpl. rewrite Htr.
  split_and!; [by rewrite <- !app_assoc|done|done|].
  by rewrite list_lookup_insert_eq by (by rewrite ?length_insert).
Qed.

(** C2.  Reentrancy.  First part: a chain whose flag [isInTransaction] is
    set calls [doInTransaction(func)].  If the body of [func], run by the
    chain in place of the call, ends with [r] (a value or an error) after a
    schedule, then the call, under the same schedule, hands [r] unchanged to
    the code [k] that awaits it and leaves the process as [func] alone left
    it (same trace, log, slot, promises, other chains); the chain has sent no
    BEGIN, COMMIT or ROLLBACK meanwhile.
    Second part: in [doInTransaction(() => doInTransaction(func))], called
    from outside a transaction, chain 0 sends one BEGIN, then only the
    statements of [func], then, [func] having returned, one COMMIT. *)
Theorem reentrancy (site tx_site : string) :
  (∀ (c : nat) (func : prog) (k : result value → prog) (fs : list frame)
     (s s0 : state) (sched : list (nat * result run_info)) (ch0 : chain)
     (r : result value) (d d' : result run_info),
     chains s !! c = Some (Chain true (Running (DoInTransaction func k)) fs) →
     play site tx_site sched (set_chain c (Chain true (Running func) []) s) = Some s0 →
     chains s0 !! c = Some ch0 →
     outcome ch0 = Some r →
     play site tx_site ((c, d) :: sched ++ [(c, d')]) s =
       Some (set_chain c (Chain true (Running (k r)) fs) s0)
     ∧ ∃ evs, trace s0 = trace s ++ evs ∧ silent c evs)
  ∧ (∀ (rest : list prog) (func : prog) (k : result value → prog)
       (sched : list (nat * result run_info)) (s0 : state) (ch0 : chain)
       (v : value) (info info' : run_info) (d0 d2 d3 d4 : result run_info),
       play site tx_site sched (opened func rest) = Some s0 →
       chains s0 !! 0 = Some ch0 →
       outcome ch0 = Some (Ok v) →
       ∃ s' evs,
         play site tx_site
             ([(0, d0); (0, Ok info); (0, d2)] ++ sched
              ++ [(0, d3); (0, d4); (0, Ok info')])
             (boot (DoInTransaction (DoInTransaction func pass) k :: rest)) = Some s'
         ∧ trace s' = [Issued 0 Begin; Completed 0 Begin true] ++ evs
                      ++ [Issued 0 Commit; Completed 0 Commit true]
         ∧ silent 0 evs
         ∧ transactionActive s' = false
         ∧ chains s' !! 0 = Some (Chain false (AwaitOwn (Some 0) v k) [])).
Proof.
  split.
  - intros. by eapply inline_call.
  - intros. by eapply nested_call.
Qed.

(** C2 on the example of the specification,
    [runInTransaction(() => runInTransaction(() => insert(...)))]: the inner
    call seen from inside the open transaction, and the whole. *)
Lemma reentrancy_witness :
  let q := "INSERT INTO notes(noteId) VALUES (?)" in
  let inner := insert_note q [VStr "a"] in
  let s := State true (Some 0) [Pending]
             [Chain true (Running (DoInTransaction inner pass)) [Owner 0 pass]] []
             [Issued 0 Begin; Completed 0 Begin true] in
  let s0 := State true (Some 0) [Pending]
              [Chain true (Running (Return (VNum 1))) []] []
              [Issued 0 Begin; Completed 0 Begin true;
               Issued 0 (Query q); Completed 0 (Query q) true] in
  (play "at wrap" "at doInTransaction"
       ((0, done_ok) :: [(0, done_ok); (0, done_ok)] ++ [(0, done_ok)]) s =
     Some (set_chain 0 (Chain true (Running (pass (Ok (VNum 1)))) [Owner 0 pass]) s0)
   ∧ ∃ evs, trace s0 = trace s ++ evs ∧ silent 0 evs)
  ∧ ∃ s' evs,
      play "at wrap" "at doInTransaction"
          ([(0, done_ok); (0, done_ok); (0, done_ok)] ++ [(0, done_ok); (0, done_ok)]
           ++ [(0, done_ok); (0, done_ok); (0, done_ok)])
          (boot [DoInTransaction (DoInTransaction inner pass) pass]) = Some s'
      ∧ trace s' = [Issued 0 Begin; Completed 0 Begin true] ++ evs
                   ++ [Issued 0 Commit; Completed 0 Commit true]
      ∧ silent 0 evs
      ∧ transactionActive s' = false
      ∧ chains s' !! 0 = Some (Chain false (AwaitOwn (Some 0) (VNum 1) pass) []).
Proof.
  intros q inner s s0. split.
  - exact (proj1 (reentrancy "at wrap" "at doInTransaction") 0 inner pass
             [Owner 0 pass] s s0 [(0, done_ok); (0, done_ok)]
             (Chain true (Running (Return (VNum 1))) []) (Ok (VNum 1))
             done_ok done_ok eq_refl eq_refl eq_refl eq_refl).
  - exact (proj2 (reentrancy "at wrap" "at doInTransaction") [] inner pass
             [(0, done_ok); (0, done_ok)] s0
             (Chain true (Running (Return (VNum 1))) []) (VNum 1)
             (RunInfo (VNum 1) (VNum 1)) (RunInfo (VNum 1) (VNum 1))
             done_ok done_ok done_ok done_ok eq_refl eq_refl eq_refl).
Defined.

(** The same example, step by step, with any statement and any answers of
    the driver: one BEGIN, the statement, one COMMIT, and the caller gets
    what the inner function returned. *)
Example nested_transaction_one_begin_one_commit (site tx_site q : string)
    (ps : list value) (info1 info2 info3 : run_info) (d : result run_info) :
  ∃ s, play site tx_site
         [(0, d); (0, Ok info1); (0, d); (0, d); (0, Ok info2); (0, d); (0, d);
          (0, Ok info3); (0, d)]
         (boot [DoInTransaction (DoInTransaction (insert_note q ps) pass) pass]) = Some s
       ∧ trace s = [Issued 0 Begin; Completed 0 Begin true;
                    Issued 0 (Query q); Completed 0 (Query q) true;
                    Issued 0 Commit; Completed 0 Commit true]
       ∧ chains s !! 0 = Some (Chain false (Running (Return (lastID info2))) []).
Proof. eexists. split; [cbv; reflexivity|]. split; reflexivity. Qed.

End CoordinatorFacts.

(** * Further properties of the transaction coordinator *)

Module CoordinatorMore.
Import Coordinator CoordinatorFacts.

Section Flags.

Variable site : string.
Variable tx_site : string.

(** What a step does to the flag and the control of the chain that takes
    it. *)
Lemma step_flag (c : nat) (d : result run_info) (s s' : state) :
  step site tx_site c d s = Some s' →
  ∃ ch ch', chains s !! c = Some ch
    ∧ chains s' = <[c:=ch']> (chains s)
    ∧ ((isInTransaction ch' = isInTransaction ch ∧ owners ch' = owners ch
        ∧ (suspended (ctl ch') = true →
           suspended (ctl ch) = true ∨ isInTransaction ch = false))
       ∨ (isInTransaction ch' = true ∧ owners ch' = S (owners ch)
          ∧ suspended (ctl ch') = false)
       ∨ (isInTransaction ch' = false ∧ closing (ctl ch) = true
          ∧ S (owners ch') = owners ch)).
Proof.
  unfold step. destruct (chains s !! c) as [[flag ct fs]|] eqn:Hch; simpl; [|done].
  unfold finish, doInTransaction, enter, catch_block, wrapped.
  intros H. destruct d as [info|de]; simpl in H.
  all: repeat match type of H with
              | context [match ?x with _ => _ end] => destruct x eqn:?; simpl in H
              end.
  all: simplify_eq.
  all: eexists _, _; (split; [reflexivity|]); (split; [simpl; reflexivity|]).
  all: unfold owners; simpl.
  all: first
    [ left; split_and!; [done|done|]; intros; first [done | by left | by right]
    | right; left; by split_and!
    | right; right; by split_and! ].
Qed.

(** The flag of a chain and its ownership change together. *)
Lemma step_flag_is_owner (c : nat) (d : result run_info) (s s' : state) :
  invariant s → flag_is_owner s →
  step site tx_site c d s = Some s' → flag_is_owner s'.
Proof.
  intros Hinv Hflag Hstep.
  destruct (step_flag _ _ _ _ Hstep) as (ch & ch' & Hch & Hchs & Hcase).
  intros c1 ch1 Hc1. rewrite Hchs in Hc1.
  destruct (lookup_set _ _ _ _ _ _ Hch Hc1) as [[-> ->]|[_ Hx]];
    [|exact (Hflag _ _ Hx)].
  destruct Hcase as [(Hf & Ho & _)|[(Hf & Ho & _)|(Hf & Hcl & Ho)]].
  - rewrite Hf, Ho. exact (Hflag _ _ Hch).
  - rewrite Hf, Ho. split; [lia|done].
  - pose proof (owners_closing _ Hcl) as Hpos.
    destruct (invariant_owner _ _ _ Hinv Hch Hpos) as (_ & Hone & _).
    rewrite Hf. split; [done|lia].
Qed.

(** A chain starts to wait only when it owns nothing. *)
Lemma step_owner_awake (c : nat) (d : result run_info) (s s' : state) :
  invariant s → flag_is_owner s → owner_awake s →
  step site tx_site c d s = Some s' → owner_awake s'.
Proof.
  intros Hinv Hflag Hawake Hstep.
  destruct (step_flag _ _ _ _ Hstep) as (ch & ch' & Hch & Hchs & Hcase).
  intros c1 ch1 Hc1 Hsusp. rewrite Hchs in Hc1.
  destruct (lookup_set _ _ _ _ _ _ Hch Hc1) as [[-> ->]|[_ Hx]];
    [|exact (Hawake _ _ Hx Hsusp)].
  destruct Hcase as [(Hf & Ho & Hs)|[(Hf & Ho & Hs)|(Hf & Hcl & Ho)]].
  - rewrite Ho. destruct (Hs Hsusp) as [Hs'|Hfalse]; [exact (Hawake _ _ Hch Hs')|].
    destruct (decide (0 < owners ch)) as [Hpos|Hz]; [|lia].
    apply (Hflag _ _ Hch) in Hpos. congruence.
  - congruence.
  - pose proof (owners_closing _ Hcl) as Hpos.
    destruct (invariant_owner _ _ _ Hinv Hch Hpos) as (_ & Hone & _). lia.
Qed.

Lemma run_flags (sched : list (nat * result run_info)) (s s' : state) :
  invariant s → flag_is_owner s → owner_awake s →
  play site tx_site sched s = Some s' →
  invariant s' ∧ flag_is_owner s' ∧ owner_awake s'.
Proof.
  revert s. induction sched as [|[c d] sched IH]; intros s Hinv Hf Ha H; simpl in H.
  - by simplify_eq.
  - destruct (step site tx_site c d s) as [s1|] eqn:Hs; [|done].
    eapply IH; [| | |exact H].
    + by eapply step_invariant.
    + by eapply step_flag_is_owner.
    + by eapply step_owner_awake.
Qed.

Lemma boot_run_flags (codes : list prog) (sched : list (nat * result run_info))
    (s : state) :
  play site tx_site sched (boot codes) = Some s →
  invariant s ∧ flag_is_owner s ∧ owner_awake s.
Proof.
  apply run_flags; [apply boot_invariant| |].
  - intros c ch Hc. unfold boot in Hc. simpl in Hc.
    pose proof (boot_chain_idle _ _ _ Hc) as Hz.
    rewrite list_lookup_fmap in Hc.
    destruct (codes !! c) as [code|]; simpl in Hc; simplify_eq. simpl.
    split; [done|]. unfold owners. simpl. lia.
  - intros c ch Hc _. unfold boot in Hc. simpl in Hc. by eapply boot_chain_idle.
Qed.

(** A chain that owns a transaction can take its next step, whatever the
    driver answers. *)
Lemma owner_steps (c : nat) (d : result run_info) (s : state) (ch : chain) :
  chains s !! c = Some ch → 0 < owners ch → suspended (ctl ch) = false →
  is_Some (step site tx_site c d s).
Proof.
  intros Hch Hpos Hsusp. unfold step. rewrite Hch. simpl.
  destruct ch as [flag ct fs]. unfold owners in Hpos. simpl in *.
  destruct ct as [[v|e|q ps k|func k]|q k| | | | |]; simpl in *; try done.
  all: try (unfold wrapped; destruct d; simpl; done).
  all: unfold finish; simpl; destruct fs as [|[k'|p' k'] fs]; simpl in *;
    [lia|done|done].
Qed.

End Flags.

Section Slot.

Variable site : string.
Variable tx_site : string.

(** What a step does to the slot: it leaves the two variables and the
    promises alone; it takes the slot for a new pending promise; it ends a
    transaction and frees the slot; or its ROLLBACK is rejected and the slot
    is left as it is. *)
Lemma step_slot (c : nat) (d : result run_info) (s s' : state) :
  step site tx_site c d s = Some s' →
  ∃ ch ch' evs, chains s !! c = Some ch
    ∧ chains s' = <[c:=ch']> (chains s)
    ∧ trace s' = trace s ++ evs
    ∧ ((transactionActive s' = transactionActive s
        ∧ transactionPromise s' = transactionPromise s
        ∧ promises s' = promises s
        ∧ owners ch' = owners ch ∧ owned_promise ch' = owned_promise ch)
       ∨ (transactionActive s = false ∧ transactionActive s' = true
          ∧ transactionPromise s' = Some (length (promises s))
          ∧ promises s' = promises s ++ [Pending]
          ∧ owners ch' = S (owners ch)
          ∧ owned_promise ch' = Some (length (promises s)))
       ∨ (closing (ctl ch) = true ∧ S (owners ch') = owners ch
          ∧ transactionActive s' = false)
       ∨ (closing (ctl ch) = true ∧ S (owners ch') = owners ch
          ∧ transactionActive s' = transactionActive s
          ∧ transactionPromise s' = transactionPromise s
          ∧ promises s' = promises s
          ∧ Completed c Rollback false ∈ evs)).
Proof.
  unfold step. destruct (chains s !! c) as [[flag ct fs]|] eqn:Hch; simpl; [|done].
  unfold finish, doInTransaction, enter, catch_block, wrapped.
  intros H. destruct d as [info|de]; simpl in H.
  all: repeat match type of H with
              | context [match ?x with _ => _ end] => destruct x eqn:?; simpl in H
              end.
  all: simplify_eq.
  all: eexists _, _, _; (split; [reflexivity|]); (split; [simpl; reflexivity|]).
  all: simpl; rewrite <- ?app_assoc; simpl.
  all: try (split; [reflexivity|]).
  all: try (split; [symmetry; apply app_nil_r|]).
  all: unfold owners, owned_promise; simpl.
  all: first
    [ left; by split_and!
    | right; left; by split_and!
    | right; right; left; by split_and!
    | right; right; right; split_and!; try done; by apply list_elem_of_singleton ].
Qed.

(** While the slot is marked active, [transactionPromise] is a pending
    promise. *)
Lemma step_slot_promise_pending (c : nat) (d : result run_info) (s s' : state) :
  slot_promise_pending s →
  step site tx_site c d s = Some s' → slot_promise_pending s'.
Proof.
  intros Hpend Hstep Ha.
  destruct (step_slot _ _ _ _ Hstep) as (ch & ch' & evs & _ & _ & _ & Hcase).
  destruct Hcase as [(Hact & Htp & Hp & _)|[(_ & _ & Htp & Hp & _)
                    |[(_ & _ & Hact)|(_ & _ & Hact & Htp & Hp & _)]]].
  - rewrite Htp, Hp. apply Hpend. congruence.
  - rewrite Htp, Hp. eexists. split; [done|]. by rewrite list_lookup_middle.
  - congruence.
  - rewrite Htp, Hp. apply Hpend. congruence.
Qed.

(** [transactionPromise] is the promise of the transaction that is owned. *)
Lemma step_slot_promise_owned (c : nat) (d : result run_info) (s s' : state) :
  invariant s → slot_promise_owned s →
  step site tx_site c d s = Some s' → slot_promise_owned s'.
Proof.
  intros Hinv Hown Hstep.
  destruct (step_slot _ _ _ _ Hstep) as (ch & ch' & evs & Hch & Hchs & _ & Hcase).
  intros c1 ch1 p1 Hc1 Hp1. rewrite Hchs in Hc1.
  destruct Hcase as [(_ & Htp & _ & _ & Ho)|[(Hfree & _ & Htp & _ & _ & Ho)
                    |[(Hcl & Hdec & _)|(Hcl & Hdec & _)]]].
  - rewrite Htp.
    destruct (lookup_set _ _ _ _ _ _ Hch Hc1) as [[-> ->]|[_ Hx]].
    + eapply Hown; [exact Hch|congruence].
    + by eapply Hown.
  - destruct (lookup_set _ _ _ _ _ _ Hch Hc1) as [[-> ->]|[_ Hx]]; [congruence|].
    apply owned_promise_owners in Hp1.
    destruct (invariant_owner _ _ _ Hinv Hx Hp1) as (Ha & _). congruence.
  - pose proof (owners_closing _ Hcl) as Hpos.
    destruct (invariant_owner _ _ _ Hinv Hch Hpos) as (_ & Hone & Hoth).
    apply owned_promise_owners in Hp1.
    destruct (lookup_set _ _ _ _ _ _ Hch Hc1) as [[-> ->]|[Hne Hx]]; [lia|].
    specialize (Hoth _ _ Hne Hx). lia.
  - pose proof (owners_closing _ Hcl) as Hpos.
    destruct (invariant_owner _ _ _ Hinv Hch Hpos) as (_ & Hone & Hoth).
    apply owned_promise_owners in Hp1.
    destruct (lookup_set _ _ _ _ _ _ Hch Hc1) as [[-> ->]|[Hne Hx]]; [lia|].
    specialize (Hoth _ _ Hne Hx). lia.
Qed.

(** The slot is marked active only for an owner, unless a ROLLBACK has been
    rejected. *)
Lemma step_active_has_cause (c : nat) (d : result run_info) (s s' : state) :
  invariant s → active_has_cause s →
  step site tx_site c d s = Some s' → active_has_cause s'.
Proof.
  intros Hinv Hcause Hstep Ha.
  destruct (step_slot _ _ _ _ Hstep) as (ch & ch' & evs & Hch & Hchs & Htr & Hcase).
  destruct Hcase as [(Hact & _ & _ & Ho & _)|[(_ & _ & _ & _ & Ho & _)
                    |[(_ & _ & Hact)|(_ & _ & _ & _ & _ & Hev)]]].
  - rewrite Hact in Ha. destruct (Hcause Ha) as [(c0 & ch0 & Hc0 & Hpos)|(c0 & Hin)].
    + left. destruct (decide (c0 = c)) as [->|Hne].
      * exists c, ch'. rewrite Hchs. split; [by eapply lookup_set_eq|].
        assert (ch0 = ch) as -> by congruence. lia.
      * exists c0, ch0. rewrite Hchs, list_lookup_insert_ne by done. done.
    + right. exists c0. rewrite Htr. apply elem_of_app. by left.
  - left. exists c, ch'. rewrite Hchs. split; [by eapply lookup_set_eq|lia].
  - congruence.
  - right. exists c. rewrite Htr. apply elem_of_app. by right.
Qed.

Lemma run_slot (sched : list (nat * result run_info)) (s s' : state) :
  invariant s → slot_promise_pending s → slot_promise_owned s → active_has_cause s →
  play site tx_site sched s = Some s' →
  invariant s' ∧ slot_promise_pending s' ∧ slot_promise_owned s' ∧ active_has_cause s'.
Proof.
  revert s. induction sched as [|[c d] sched IH]; intros s Hinv H1 H2 H3 H; simpl in H.
  - by simplify_eq.
  - destruct (step site tx_site c d s) as [s1|] eqn:Hs; [|done].
    eapply IH; [| | | |exact H].
    + by eapply step_invariant.
    + by eapply step_slot_promise_pending.
    + by eapply step_slot_promise_owned.
    + by eapply step_active_has_cause.
Qed.

Lemma boot_run_slot (codes : list prog) (sched : list (nat * result run_info))
    (s : state) :
  play site tx_site sched (boot codes) = Some s →
  invariant s ∧ slot_promise_pending s ∧ slot_promise_owned s ∧ active_has_cause s.
Proof.
  apply run_slot; [apply boot_invariant|done| |done].
  intros c ch p Hc Hp. unfold boot in Hc. simpl in Hc.
  apply boot_chain_idle in Hc. apply owned_promise_owners in Hp. lia.
Qed.

End Slot.

Section Phases.

Variable site : string.
Variable tx_site : string.

Lemma advance_all_app (ph : phase) (l1 l2 : list event) :
  advance_all ph (l1 ++ l2) =
    match advance_all ph l1 with
    | Some ph' => advance_all ph' l2
    | None => None
    end.
Proof.
  revert ph. induction l1 as [|e l1 IH]; intros ph; simpl; [done|].
  destruct (advance ph e); [apply IH|done].
Qed.

(** The chains' own queries leave the phase as it is. *)
Lemma advance_all_queries (ph : phase) (evs : list event) :
  Forall (λ e, coordinator_stmt e = false) evs → advance_all ph evs = Some ph.
Proof.
  induction 1 as [|e evs He _ IH]; simpl; [done|].
  destruct e as [c [| | |q]|c [| | |q] ok]; simpl in *; done.
Qed.

Lemma chain_phase_idle (c : nat) (ch : chain) :
  chain_phase c ch = Idle ↔ owners ch = 0.
Proof.
  unfold chain_phase, owners.
  destruct (ctl ch); simpl; destruct (owner_frames (frames ch)); simpl;
    split; (done || lia).
Qed.

(** The coordinator's statements of a step take the phase of the chain from
    where it stood to where it stands. *)
Lemma step_phase (c : nat) (d : result run_info) (s s' : state) (ch : chain) :
  chains s !! c = Some ch →
  (owners ch ≤ 1)%nat →
  (transactionActive s = false → owners ch = 0) →
  step site tx_site c d s = Some s' →
  ∃ ch' evs, chains s' = <[c:=ch']> (chains s)
    ∧ trace s' = trace s ++ evs
    ∧ advance_all (chain_phase c ch) evs = Some (chain_phase c ch')
    ∧ (owners ch = 0 → owners ch' = 0 → Forall (λ e, coordinator_stmt e = false) evs).
Proof.
  intros Hch Hle Hfree. unfold step. rewrite Hch. simpl.
  destruct ch as [flag ct fs]. unfold owners in Hle, Hfree. simpl in *.
  unfold finish, doInTransaction, enter, catch_block, wrapped.
  intros H. destruct d as [info|de]; simpl in H.
  all: repeat match type of H with
              | context [match ?x with _ => _ end] => destruct x eqn:?; simpl in *
              end.
  all: simplify_eq.
  all: eexists _, _; (split; [simpl; reflexivity|]).
  all: simpl; rewrite <- ?app_assoc; simpl.
  all: try (split; [reflexivity|]).
  all: try (split; [symmetry; apply app_nil_r|]).
  all: unfold chain_phase, owners; simpl.
  all: rewrite ?bool_decide_eq_true_2 by done; simpl.
  all: try (specialize (Hfree eq_refl)).
  all: repeat match goal with
              | |- context [owner_frames ?l] => destruct (owner_frames l); simpl in *
              end.
  all: try lia.
  all: split; [try done|intros; try done; try lia; by repeat constructor].
Qed.

(** The trace stays a sequence of whole transactions followed by the one in
    progress. *)
Lemma step_in_phase (c : nat) (d : result run_info) (s s' : state) :
  invariant s → in_phase s →
  step site tx_site c d s = Some s' → in_phase s'.
Proof.
  intros Hinv (ph & Hph & Hrel) Hstep.
  pose proof (step_invariant _ _ _ _ _ _ Hinv Hstep) as Hinv'.
  destruct (step_effect _ _ _ _ _ _ Hstep) as (ch & _ & _ & Hch & _).
  assert (Hle : (owners ch ≤ 1)%nat ∧ (transactionActive s = false → owners ch = 0)).
  { destruct (decide (0 < owners ch)) as [Hpos|Hz]; [|lia].
    destruct (invariant_owner _ _ _ Hinv Hch Hpos) as (Ha & Hone & _).
    split; [lia|congruence]. }
  destruct Hle as [Hle Hfree].
  destruct (step_phase _ _ _ _ _ Hch Hle Hfree Hstep)
    as (ch' & evs & Hchs & Htr & Hadv & Hq).
  pose proof (lookup_set_eq _ _ _ ch' Hch) as Hc'. rewrite <- Hchs in Hc'.
  unfold in_phase. rewrite Htr, advance_all_app, Hph.
  destruct (decide (0 < owners ch)) as [Hpos|Hz].
  - (* the owner steps *)
    destruct (invariant_owner _ _ _ Hinv Hch Hpos) as (_ & Hone & Hoth).
    assert (ph = chain_phase c ch) as ->.
    { destruct Hrel as [(Hquiet & _)|(c0 & ch0 & Hc0 & Hpos0 & <-)].
      - specialize (Hquiet _ _ Hch). lia.
      - assert (c0 = c) as ->
          by exact (invariant_one_owner _ _ _ _ _ Hinv Hc0 Hch Hpos0 Hpos).
        congruence. }
    exists (chain_phase c ch'). split; [done|].
    destruct (decide (0 < owners ch')) as [Hpos'|Hz'].
    + right. by exists c, ch'.
    + left. split; [|apply chain_phase_idle; lia].
      intros c1 x Hx. rewrite Hchs in Hx.
      destruct (lookup_set _ _ _ _ _ _ Hch Hx) as [[-> ->]|[Hne Hx']]; [lia|].
      by eapply Hoth.
  - destruct (decide (0 < owners ch')) as [Hpos'|Hz'].
    + (* the chain takes the slot *)
      assert (Hfree' : transactionActive s = false).
      { destruct (step_slot _ _ _ _ _ _ Hstep)
          as (x & x' & evs' & Hx & Hxs & _ & Hcase).
        assert (x = ch) by congruence. subst x.
        assert (x' = ch').
        { rewrite Hxs in Hc'. rewrite (lookup_set_eq _ _ _ x' Hch) in Hc'.
          congruence. }
        subst x'.
        destruct Hcase as [(_ & _ & _ & Ho & _)|[(Hf & _)|[(Hcl & _)|(Hcl & _)]]];
          [lia|done|apply owners_closing in Hcl; lia
          |apply owners_closing in Hcl; lia]. }
      assert (ph = Idle) as ->.
      { destruct Hrel as [(_ & ->)|(c0 & ch0 & Hc0 & Hpos0 & _)]; [done|].
        destruct (invariant_owner _ _ _ Hinv Hc0 Hpos0) as (Ha & _). congruence. }
      assert (chain_phase c ch = Idle) as Hidle by (apply chain_phase_idle; lia).
      rewrite Hidle in Hadv.
      exists (chain_phase c ch'). split; [done|]. right. by exists c, ch'.
    + (* a chain that owns nothing, before and after *)
      rewrite (advance_all_queries _ _ (Hq ltac:(lia) ltac:(lia))).
      exists ph. split; [done|].
      destruct Hrel as [(Hquiet & ->)|(c0 & ch0 & Hc0 & Hpos0 & Hph0)].
      * left. split; [|done]. intros c1 x Hx. rewrite Hchs in Hx.
        destruct (lookup_set _ _ _ _ _ _ Hch Hx) as [[-> ->]|[Hne Hx']]; [lia|].
        by eapply Hquiet.
      * right. exists c0, ch0. split_and!; [|done|done].
        rewrite Hchs. rewrite list_lookup_insert_ne; [done|].
        intros ->. assert (ch0 = ch) by congruence. subst. lia.
Qed.

Lemma run_in_phase (sched : list (nat * result run_info)) (s s' : state) :
  invariant s → in_phase s →
  play site tx_site sched s = Some s' → invariant s' ∧ in_phase s'.
Proof.
  revert s. induction sched as [|[c d] sched IH]; intros s Hinv Hph H; simpl in H.
  - by simplify_eq.
  - destruct (step site tx_site c d s) as [s1|] eqn:Hs; [|done].
    eapply IH; [| |exact H].
    + by eapply step_invariant.
    + by eapply step_in_phase.
Qed.

Lemma boot_in_phase (codes : list prog) : in_phase (boot codes).
Proof.
  exists Idle. split; [done|]. left. split; [|done].
  intros c ch Hc. unfold boot in Hc. simpl in Hc. by eapply boot_chain_idle.
Qed.

End Phases.

Section Outcomes.

Variable site : string.
Variable tx_site : string.

(** The function of the owner returns [v] and the COMMIT is fulfilled (lines
    144-149, then 165-169). *)
Lemma return_then_commit (c p : nat) (s : state) (flag : bool) (v : value)
    (k : result value → prog) (fs : list frame) (info : run_info)
    (d1 d2 : result run_info) :
  chains s !! c = Some (Chain flag (Running (Return v)) (Owner p k :: fs)) →
  promises s !! p = Some Pending →
  ∃ s', play site tx_site [(c, d1); (c, Ok info); (c, d2)] s = Some s'
        ∧ trace s' = trace s ++ [Issued c Commit; Completed c Commit true]
        ∧ log s' = log s
        ∧ transactionActive s' = false
        ∧ promises s' = <[p:=Fulfilled]> (promises s)
        ∧ chains s' = <[c:=Chain false (Running (k (Ok v))) fs]> (chains s).
Proof.
  intros Hch Hp.
  pose proof (lookup_lt_Some _ _ _ Hch) as Hlt.
  pose proof (lookup_lt_Some _ _ _ Hp) as Hltp.
  unfold play, step. rewrite Hch. simpl.
  rewrite list_lookup_insert_eq by done. simpl.
  rewrite list_lookup_insert_eq by (by rewrite ?length_insert). simpl.
  unfold awaited. simpl. rewrite (list_lookup_insert_eq (promises s)) by done.
  eexists. split; [reflexivity|]. simpl.
  rewrite <- !app_assoc, !list_insert_insert_eq. by split_and!.
Qed.

(** The BEGIN of the executor is rejected with [y] and the ROLLBACK is
    fulfilled (line 142, then 151-158 and 166). *)
Lemma begin_rejected_then_rollback (c p : nat) (s : state) (flag : bool)
    (func : prog) (y : jserror) (k : result value → prog) (fs : list frame)
    (info : run_info) (d : result run_info) :
  chains s !! c = Some (Chain flag (AwaitBegin p func k) fs) →
  promises s !! p = Some Pending →
  ∃ s', play site tx_site [(c, Thrown y); (c, Ok info); (c, d)] s = Some s'
        ∧ trace s' = trace s ++ [Completed c Begin false; Issued c Rollback;
                                 Completed c Rollback true]
        ∧ log s' = log s ++ [Executor.wrap_log y site;
                             rollback_log (Executor.wrap_error y site) tx_site]
        ∧ transactionActive s' = false
        ∧ promises s' = <[p:=Rejected (Executor.wrap_error y site)]> (promises s)
        ∧ chains s' =
            <[c:=Chain false (Running (k (Thrown (Executor.wrap_error y site)))) fs]>
              (chains s).
Proof.
  intros Hch Hp.
  pose proof (lookup_lt_Some _ _ _ Hch) as Hlt.
  pose proof (lookup_lt_Some _ _ _ Hp) as Hltp.
  unfold play, step. rewrite Hch. simpl.
  rewrite list_lookup_insert_eq by done. simpl.
  rewrite list_lookup_insert_eq by (by rewrite ?length_insert). simpl.
  unfold awaited. simpl. rewrite (list_lookup_insert_eq (promises s)) by done.
  eexists. split; [reflexivity|]. simpl.
  rewrite <- !app_assoc, !list_insert_insert_eq. by split_and!.
Qed.

End Outcomes.

(** X1.  The context flag tells ownership.  After any schedule from the
    start, the flag [isInTransaction] of a chain is set exactly when the
    chain owns a transaction: it is set with the slot (line 140) and cleared
    by the [finally] block (line 161) on every way out of the executor. *)
Theorem flag_tells_ownership (site tx_site : string) (codes : list prog)
    (sched : list (nat * result run_info)) (s : state) (c : nat) (ch : chain) :
  play site tx_site sched (boot codes) = Some s →
  chains s !! c = Some ch →
  (isInTransaction ch = true ↔ 0 < owners ch).
Proof.
  intros Hrun Hch.
  destruct (boot_run_flags _ _ _ _ _ Hrun) as (_ & Hflag & _).
  exact (Hflag _ _ Hch).
Qed.

(** X1 on the owner of the first transaction of two contenders. *)
Lemma flag_tells_ownership_witness :
  ∃ s ch, play "at wrap" "at doInTransaction" [(0, done_ok); (1, done_ok)]
            (boot two_inserts) = Some s
          ∧ chains s !! 0 = Some ch
          ∧ (isInTransaction ch = true ↔ 0 < owners ch).
Proof.
  eexists _, _. split; [vm_compute; reflexivity|]. split; [reflexivity|].
  eapply (flag_tells_ownership "at wrap" "at doInTransaction" two_inserts
            [(0, done_ok); (1, done_ok)] _ 0); [vm_compute|]; reflexivity.
Defined.



(** X3.  The shared promise.  After any schedule from the start: while
    [transactionActive] is true, [transactionPromise] is a promise that is
    still pending, so the loop at line 130 suspends the chain that enters it;
    and while a chain owns a transaction, [transactionPromise] is the
    promise of that transaction. *)
Theorem slot_promise_is_pending (site tx_site : string) (codes : list prog)
    (sched : list (nat * result run_info)) (s : state) :
  play site tx_site sched (boot codes) = Some s →
  (transactionActive s = true →
     ∃ p, transactionPromise s = Some p ∧ promises s !! p = Some Pending)
  ∧ (∀ c ch p, chains s !! c = Some ch → owned_promise ch = Some p →
       transactionPromise s = Some p ∧ promises s !! p = Some Pending).
Proof.
  intros Hrun.
  destruct (boot_run_slot _ _ _ _ _ Hrun) as (_ & Hpend & Hown & _).
  destruct (boot_run_pending _ _ _ _ _ Hrun) as (_ & Hop).
  split; [exact Hpend|].
  intros c ch p Hch Hp. split; [exact (Hown _ _ _ Hch Hp)|exact (Hop _ _ _ Hch Hp)].
Qed.

(** X3 when the second of two contenders owns the slot. *)
Lemma slot_promise_is_pending_witness :
  ∃ s, play "at wrap" "at doInTransaction"
         [(0, done_ok); (1, done_ok); (0, done_ok); (0, done_ok); (0, done_ok);
          (0, done_ok); (0, done_ok); (0, done_ok); (1, done_ok)]
         (boot two_inserts) = Some s
       ∧ transactionPromise s = Some 1
       ∧ promises s = [Fulfilled; Pending]
       ∧ ((transactionActive s = true →
             ∃ p, transactionPromise s = Some p ∧ promises s !! p = Some Pending)
          ∧ (∀ c ch p, chains s !! c = Some ch → owned_promise ch = Some p →
               transactionPromise s = Some p ∧ promises s !! p = Some Pending)).
Proof.
  eexists. split; [vm_compute; reflexivity|].
  split; [reflexivity|]. split; [reflexivity|].
  apply (slot_promise_is_pending "at wrap" "at doInTransaction" two_inserts
           [(0, done_ok); (1, done_ok); (0, done_ok); (0, done_ok); (0, done_ok);
            (0, done_ok); (0, done_ok); (0, done_ok); (1, done_ok)]).
  vm_compute. reflexivity.
Defined.

(** X4.  The slot is not stuck unless a ROLLBACK was rejected.  After any
    schedule from the start in which no ROLLBACK has been rejected: whenever
    [transactionActive] is true, some chain owns the transaction and can take
    its next step, whatever the driver answers. *)
Theorem active_slot_has_owner (site tx_site : string) (codes : list prog)
    (sched : list (nat * result run_info)) (s : state) :
  play site tx_site sched (boot codes) = Some s →
  transactionActive s = true →
  ¬ rollback_rejected_in (trace s) →
  ∃ c ch, chains s !! c = Some ch ∧ 0 < owners ch
          ∧ ∀ d, is_Some (step site tx_site c d s).
Proof.
  intros Hrun Ha Hno.
  destruct (boot_run_slot _ _ _ _ _ Hrun) as (_ & _ & _ & Hcause).
  destruct (Hcause Ha) as [(c & ch & Hch & Hpos)|Hrej]; [|done].
  exists c, ch. split_and!; [done|done|].
  intros d.
  destruct (boot_run_flags _ _ _ _ _ Hrun) as (_ & _ & Hawake).
  eapply owner_steps; [exact Hch|exact Hpos|].
  destruct (suspended (ctl ch)) eqn:Hs; [|done].
  specialize (Hawake _ _ Hch Hs). lia.
Qed.

(** X4 while the first of two contenders awaits its COMMIT. *)
Lemma active_slot_has_owner_witness :
  ∃ s, play "at wrap" "at doInTransaction"
         [(0, done_ok); (1, done_ok); (0, done_ok); (0, done_ok); (0, done_ok);
          (0, done_ok)]
         (boot two_inserts) = Some s
       ∧ ∃ c ch, chains s !! c = Some ch ∧ 0 < owners ch
                 ∧ ∀ d, is_Some (step "at wrap" "at doInTransaction" c d s).
Proof.
  eexists. split; [vm_compute; reflexivity|].
  apply (active_slot_has_owner "at wrap" "at doInTransaction" two_inserts
           [(0, done_ok); (1, done_ok); (0, done_ok); (0, done_ok); (0, done_ok);
            (0, done_ok)]).
  - vm_compute. reflexivity.
  - reflexivity.
  - intros [c Hin]. simpl in Hin.
    repeat (apply elem_of_cons in Hin as [Hin|Hin]; [discriminate|]).
    by apply elem_of_nil in Hin.
Defined.

(** X5.  The trace is made of whole transactions.  After any schedule from
    the start, the coordinator's statements, in the order of the trace, form
    transactions of one chain each: BEGIN; if it is fulfilled, the function's
    queries, then COMMIT or (the function having thrown) ROLLBACK; after a
    rejected BEGIN or COMMIT, ROLLBACK; and no statement of a transaction
    before the completion of the one before.  The transaction in progress is
    where its owner stands; when no chain owns one, none is in progress. *)
Theorem trace_of_whole_transactions (site tx_site : string) (codes : list prog)
    (sched : list (nat * result run_info)) (s : state) :
  play site tx_site sched (boot codes) = Some s →
  ∃ ph, advance_all Idle (trace s) = Some ph
        ∧ ((quiet s ∧ ph = Idle)
           ∨ ∃ c ch, chains s !! c = Some ch ∧ 0 < owners ch ∧ chain_phase c ch = ph).
Proof.
  intros Hrun.
  eapply (run_in_phase site tx_site sched (boot codes) s);
    [apply boot_invariant|apply boot_in_phase|exact Hrun].
Qed.

(** X5 on two contenders, the second at its COMMIT. *)
Lemma trace_of_whole_transactions_witness :
  ∃ s, play "at wrap" "at doInTransaction"
         [(0, done_ok); (1, done_ok); (0, done_ok); (0, done_ok); (0, done_ok);
          (0, done_ok); (0, done_ok); (0, done_ok); (1, done_ok); (1, done_ok);
          (1, done_ok); (1, done_ok); (1, done_ok)]
         (boot two_inserts) = Some s
       ∧ advance_all Idle (trace s) = Some (Committing 1)
       ∧ ∃ ph, advance_all Idle (trace s) = Some ph
               ∧ ((quiet s ∧ ph = Idle)
                  ∨ ∃ c ch, chains s !! c = Some ch ∧ 0 < owners ch
                            ∧ chain_phase c ch = ph).
Proof.
  eexists. split; [vm_compute; reflexivity|]. split; [reflexivity|].
  apply (trace_of_whole_transactions "at wrap" "at doInTransaction" two_inserts
           [(0, done_ok); (1, done_ok); (0, done_ok); (0, done_ok); (0, done_ok);
            (0, done_ok); (0, done_ok); (0, done_ok); (1, done_ok); (1, done_ok);
            (1, done_ok); (1, done_ok); (1, done_ok)]).
  vm_compute. reflexivity.
Defined.


(** X6.  Outcome of a transaction that succeeds.  After any schedule from the
    start, when the function of the chain that owns the transaction returns
    [v] and the driver fulfils the COMMIT: COMMIT is the only statement
    issued, nothing is logged, [transactionActive] is false, the promise of
    the transaction is fulfilled, the flag of the chain is cleared, and the
    caller of [doInTransaction] receives [v] (lines 144-149 and 160-169). *)
Theorem commit_success_outcome (site tx_site : string) (codes : list prog)
    (sched : list (nat * result run_info)) (s : state) (c p : nat) (flag : bool)
    (v : value) (k : result value → prog) (fs : list frame) (info : run_info)
    (d1 d2 : result run_info) :
  play site tx_site sched (boot codes) = Some s →
  chains s !! c = Some (Chain flag (Running (Return v)) (Owner p k :: fs)) →
  ∃ s', play site tx_site [(c, d1); (c, Ok info); (c, d2)] s = Some s'
        ∧ trace s' = trace s ++ [Issued c Commit; Completed c Commit true]
        ∧ log s' = log s
        ∧ transactionActive s' = false
        ∧ promises s' !! p = Some Fulfilled
        ∧ chains s' !! c = Some (Chain false (Running (k (Ok v))) fs).
Proof.
  intros Hrun Hch.
  destruct (boot_run_pending _ _ _ _ _ Hrun) as (_ & Hop).
  pose proof (Hop _ _ _ Hch eq_refl) as Hp.
  destruct (return_then_commit site tx_site c p s flag v k fs info d1 d2 Hch Hp)
    as (s' & Hplay & Htr & Hlog & Ha & Hps & Hchs).
  exists s'. split; [exact Hplay|]. split; [exact Htr|]. split; [exact Hlog|].
  split; [exact Ha|]. split.
  - rewrite Hps. apply list_lookup_insert_eq. by eapply lookup_lt_Some.
  - rewrite Hchs. apply list_lookup_insert_eq. by eapply lookup_lt_Some.
Qed.

(** X6 on the first of two contenders, once its insert has returned. *)
Lemma commit_success_outcome_witness :
  ∃ s, play "at wrap" "at doInTransaction"
         [(0, done_ok); (1, done_ok); (0, done_ok); (0, done_ok); (0, done_ok)]
         (boot two_inserts) = Some s
       ∧ ∃ s', play "at wrap" "at doInTransaction"
                 [(0, done_ok); (0, Ok (RunInfo VUndefined (VNum 0))); (0, done_ok)] s
               = Some s'
               ∧ trace s' = trace s ++ [Issued 0 Commit; Completed 0 Commit true]
               ∧ log s' = log s
               ∧ transactionActive s' = false
               ∧ promises s' !! 0 = Some Fulfilled
               ∧ chains s' !! 0
                 = Some (Chain false (Running (pass (Ok (VNum 1)))) []).
Proof.
  eexists. split; [vm_compute; reflexivity|].
  apply (commit_success_outcome "at wrap" "at doInTransaction" two_inserts
           [(0, done_ok); (1, done_ok); (0, done_ok); (0, done_ok); (0, done_ok)]
           _ 0 0 true (VNum 1) pass [] (RunInfo VUndefined (VNum 0)) done_ok done_ok);
    [vm_compute|]; reflexivity.
Defined.

(** X7.  Outcome of a rejected BEGIN.  After any schedule from the start,
    when the driver rejects the BEGIN of a transaction with [y] and then
    fulfils the ROLLBACK: the function is never called (the trace gains no
    other statement than ROLLBACK), the log gains the entry of [wrap] and the
    entry of the [catch] block, [transactionActive] is false, the promise of
    the transaction is rejected, the flag of the chain is cleared, and the
    caller of [doInTransaction] receives the wrapped error of the BEGIN
    (lines 142, 151-158 and 160-169). *)
Theorem begin_failure_outcome (site tx_site : string) (codes : list prog)
    (sched : list (nat * result run_info)) (s : state) (c p : nat) (flag : bool)
    (func : prog) (y : jserror) (k : result value → prog) (fs : list frame)
    (info : run_info) (d : result run_info) :
  play site tx_site sched (boot codes) = Some s →
  chains s !! c = Some (Chain flag (AwaitBegin p func k) fs) →
  ∃ s', play site tx_site [(c, Thrown y); (c, Ok info); (c, d)] s = Some s'
        ∧ trace s' = trace s ++ [Completed c Begin false; Issued c Rollback;
                                 Completed c Rollback true]
        ∧ log s' = log s ++ [Executor.wrap_log y site;
                             rollback_log (Executor.wrap_error y site) tx_site]
        ∧ transactionActive s' = false
        ∧ promises s' !! p = Some (Rejected (Executor.wrap_error y site))
        ∧ chains s' !! c
          = Some (Chain false (Running (k (Thrown (Executor.wrap_error y site)))) fs).
Proof.
  intros Hrun Hch.
  destruct (boot_run_pending _ _ _ _ _ Hrun) as (_ & Hop).
  pose proof (Hop _ _ _ Hch eq_refl) as Hp.
  destruct (begin_rejected_then_rollback site tx_site c p s flag func y k fs info d
              Hch Hp) as (s' & Hplay & Htr & Hlog & Ha & Hps & Hchs).
  exists s'. split; [exact Hplay|]. split; [exact Htr|]. split; [exact Hlog|].
  split; [exact Ha|].
  split; [rewrite Hps; apply list_lookup_insert_eq; by eapply lookup_lt_Some|].
  rewrite Hchs. apply list_lookup_insert_eq. by eapply lookup_lt_Some.
Qed.

(** X7 on the first of two contenders, the database being locked. *)
Lemma begin_failure_outcome_witness :
  ∃ s, play "at wrap" "at doInTransaction" [(0, done_ok); (1, done_ok)]
         (boot two_inserts) = Some s
       ∧ ∃ s', play "at wrap" "at doInTransaction"
                 [(0, Thrown (JsError "SQLITE_BUSY" "Error: SQLITE_BUSY"));
                  (0, Ok (RunInfo VUndefined (VNum 0))); (0, done_ok)] s
               = Some s'
               ∧ trace s' = trace s ++ [Completed 0 Begin false; Issued 0 Rollback;
                                        Completed 0 Rollback true]
               ∧ log s' = log s
                   ++ [Executor.wrap_log (JsError "SQLITE_BUSY" "Error: SQLITE_BUSY")
                         "at wrap";
                       rollback_log
                         (Executor.wrap_error
                            (JsError "SQLITE_BUSY" "Error: SQLITE_BUSY") "at wrap")
                         "at doInTransaction"]
               ∧ transactionActive s' = false
               ∧ promises s' !! 0
                 = Some (Rejected
                           (Executor.wrap_error
                              (JsError "SQLITE_BUSY" "Error: SQLITE_BUSY") "at wrap"))
               ∧ chains s' !! 0
                 = Some (Chain false
                           (Running
                              (pass (Thrown
                                       (Executor.wrap_error
                                          (JsError "SQLITE_BUSY" "Error: SQLITE_BUSY")
                                          "at wrap")))) []).
Proof.
  eexists. split; [vm_compute; reflexivity|].
  apply (begin_failure_outcome "at wrap" "at doInTransaction" two_inserts
           [(0, done_ok); (1, done_ok)] _ 0 0 true
           (insert_note "INSERT INTO notes(noteId) VALUES (?)" [VStr "a"])
           (JsError "SQLITE_BUSY" "Error: SQLITE_BUSY") pass []
           (RunInfo VUndefined (VNum 0)) done_ok);
    [vm_compute|]; reflexivity.
Defined.

(** X8.  A woken waiter checks the slot again.  After any schedule from the
    start, when a chain that waited at line 131 finds its promise fulfilled
    but [transactionActive] true (another chain has taken the slot in
    between), it issues no statement and waits again, now for the promise of
    the transaction in progress, which is pending: the chain cannot step
    until that promise is settled. *)
Theorem woken_waiter_waits_again (site tx_site : string) (codes : list prog)
    (sched : list (nat * result run_info)) (s : state) (c : nat) (flag : bool)
    (p : option nat) (func : prog) (k : result value → prog) (fs : list frame)
    (d : result run_info) :
  play site tx_site sched (boot codes) = Some s →
  chains s !! c = Some (Chain flag (AwaitSlot p func k) fs) →
  awaited s p = Some (Ok ()) →
  transactionActive s = true →
  ∃ p' s', transactionPromise s = Some p'
           ∧ promises s !! p' = Some Pending
           ∧ step site tx_site c d s = Some s'
           ∧ s' = set_chain c (Chain flag (AwaitSlot (Some p') func k) fs) s
           ∧ ∀ d', step site tx_site c d' s' = None.
Proof.
  intros Hrun Hch Haw Ha.
  destruct (boot_run_slot _ _ _ _ _ Hrun) as (_ & Hpend & _ & _).
  destruct (Hpend Ha) as (p' & Hslot & Hp').
  exists p', (set_chain c (Chain flag (AwaitSlot (Some p') func k) fs) s).
  split; [exact Hslot|]. split; [exact Hp'|]. split.
  - unfold step. rewrite Hch. simpl. rewrite Haw. unfold enter. rewrite Ha, Hslot.
    reflexivity.
  - split; [reflexivity|]. intros d'.
    unfold step, set_chain. simpl.
    rewrite list_lookup_insert_eq by (by eapply lookup_lt_Some). simpl.
    by rewrite Hp'.
Qed.

(** X8 on the third of three contenders: the first has committed and the
    second has taken the slot before the third runs. *)
Lemma woken_waiter_waits_again_witness :
  ∃ s, play "at wrap" "at doInTransaction"
         [(0, done_ok); (1, done_ok); (2, done_ok); (0, done_ok); (0, done_ok);
          (0, done_ok); (0, done_ok); (0, done_ok); (1, done_ok)]
         (boot (two_inserts ++ [DoInTransaction (insert_note "DELETE FROM notes" []) pass]))
       = Some s
       ∧ ∃ p' s', transactionPromise s = Some p'
                  ∧ promises s !! p' = Some Pending
                  ∧ step "at wrap" "at doInTransaction" 2 done_ok s = Some s'
                  ∧ s' = set_chain 2 (Chain false
                                        (AwaitSlot (Some p')
                                           (insert_note "DELETE FROM notes" []) pass) []) s
                  ∧ ∀ d', step "at wrap" "at doInTransaction" 2 d' s' = None.
Proof.
  eexists. split; [vm_compute; reflexivity|].
  apply (woken_waiter_waits_again "at wrap" "at doInTransaction"
           (two_inserts ++ [DoInTransaction (insert_note "DELETE FROM notes" []) pass])
           [(0, done_ok); (1, done_ok); (2, done_ok); (0, done_ok); (0, done_ok);
            (0, done_ok); (0, done_ok); (0, done_ok); (1, done_ok)]
           _ 2 false (Some 0));
    [vm_compute| | |]; reflexivity.
Defined.


Section Settling.

Variable site : string.
Variable tx_site : string.

(** What one step does to the table of promises: nothing, and nothing to the
    slot either; it adds the pending promise of the transaction it opens; or
    it settles the promise of the transaction it ends and frees the slot. *)
Lemma step_settles (c : nat) (d : result run_info) (s s' : state) :
  step site tx_site c d s = Some s' →
  ∃ ch, chains s !! c = Some ch
    ∧ ((transactionActive s' = transactionActive s
        ∧ transactionPromise s' = transactionPromise s
        ∧ promises s' = promises s)
       ∨ (transactionActive s = false ∧ transactionActive s' = true
          ∧ transactionPromise s' = Some (length (promises s))
          ∧ promises s' = promises s ++ [Pending])
       ∨ (∃ p st, owned_promise ch = Some p ∧ settled st = true
            ∧ transactionActive s' = false
            ∧ transactionPromise s' = transactionPromise s
            ∧ promises s' = <[p:=st]> (promises s))).
Proof.
  unfold step. destruct (chains s !! c) as [[flag ct fs]|] eqn:Hch; simpl; [|done].
  unfold finish, doInTransaction, enter, catch_block, wrapped.
  intros H. destruct d as [info|de]; simpl in H.
  all: repeat match type of H with
              | context [match ?x with _ => _ end] => destruct x eqn:?; simpl in H
              end.
  all: simplify_eq.
  all: eexists; (split; [reflexivity|]).
  all: unfold owned_promise; simpl.
  all: first
    [ left; by split_and!
    | right; left; by split_and!
    | right; right; eexists _, _; (split; [reflexivity|]);
      (split; [|split_and!; reflexivity]); reflexivity ].
Qed.

(** A settled promise stays as it is. *)
Lemma step_settled (c : nat) (d : result run_info) (s s' : state) (p : nat)
    (st : pstate) :
  owner_pending s →
  step site tx_site c d s = Some s' →
  promises s !! p = Some st → settled st = true →
  promises s' !! p = Some st.
Proof.
  intros Hpend Hstep Hp Hst.
  destruct (step_settles _ _ _ _ Hstep) as (ch & Hch & Hcase).
  destruct Hcase as [(_ & _ & ->)|[(_ & _ & _ & ->)|(q & st' & Hq & _ & _ & _ & ->)]].
  - exact Hp.
  - rewrite lookup_app_l; [exact Hp|]. by eapply lookup_lt_Some.
  - destruct (decide (q = p)) as [->|Hne].
    + rewrite (Hpend _ _ _ Hch Hq) in Hp. injection Hp as <-. done.
    + by rewrite list_lookup_insert_ne.
Qed.

Lemma run_settled (sched : list (nat * result run_info)) (s s' : state) (p : nat)
    (st : pstate) :
  invariant s → owner_pending s →
  play site tx_site sched s = Some s' →
  promises s !! p = Some st → settled st = true →
  promises s' !! p = Some st.
Proof.
  revert s. induction sched as [|[c d] sched IH]; intros s Hinv Hpend H Hp Hst;
    simpl in H.
  - by simplify_eq.
  - destruct (step site tx_site c d s) as [s1|] eqn:Hs; [|done].
    eapply (IH s1); [| |exact H| |exact Hst].
    + by eapply step_invariant.
    + by eapply step_owner_pending.
    + by eapply step_settled.
Qed.

Lemma step_pending_is_slot (c : nat) (d : result run_info) (s s' : state) :
  slot_promise_owned s → pending_is_slot s →
  step site tx_site c d s = Some s' → pending_is_slot s'.
Proof.
  intros Hown Hone Hstep.
  destruct (step_settles _ _ _ _ Hstep) as (ch & Hch & Hcase).
  intros q Hq.
  destruct Hcase as [(Ha & Htp & Hp)|[(Hfree & Ha & Htp & Hp)
                    |(p & st & Hp & Hst & Ha & Htp & Hps)]].
  - rewrite Ha, Htp. apply Hone. by rewrite <- Hp.
  - rewrite Hp in Hq. split; [exact Ha|]. rewrite Htp. f_equal.
    destruct (decide (q < length (promises s))) as [Hlt|Hge].
    + rewrite lookup_app_l in Hq by exact Hlt.
      destruct (Hone _ Hq) as [Hact _]. congruence.
    + apply lookup_lt_Some in Hq. rewrite length_app in Hq. simpl in Hq. lia.
  - exfalso. rewrite Hps in Hq.
    destruct (decide (p = q)) as [->|Hne].
    + pose proof (lookup_lt_Some _ _ _ Hq) as Hlt. rewrite length_insert in Hlt.
      rewrite list_lookup_insert_eq in Hq by exact Hlt.
      injection Hq as ->. done.
    + rewrite list_lookup_insert_ne in Hq by exact Hne.
      destruct (Hone _ Hq) as [_ Htq].
      pose proof (Hown _ _ _ Hch Hp) as Htp'. congruence.
Qed.

Lemma run_pending_is_slot (sched : list (nat * result run_info)) (s s' : state) :
  invariant s → slot_promise_owned s → pending_is_slot s →
  play site tx_site sched s = Some s' → pending_is_slot s'.
Proof.
  revert s. induction sched as [|[c d] sched IH]; intros s Hinv Hown Hone H;
    simpl in H.
  - by simplify_eq.
  - destruct (step site tx_site c d s) as [s1|] eqn:Hs; [|done].
    eapply (IH s1); [| | |exact H].
    + by eapply step_invariant.
    + by eapply step_slot_promise_owned.
    + by eapply step_pending_is_slot.
Qed.

End Settling.

(** X15.  A promise is settled once.  After any schedule from the start, a
    transaction promise that has been fulfilled or rejected stays as it is,
    whatever runs next: [resolve] and [reject] only ever reach the pending
    promise of the transaction that is ending, so what a waiter was woken
    with does not change. *)
Theorem settled_for_good (site tx_site : string) (codes : list prog)
    (sched more : list (nat * result run_info)) (s s' : state) (p : nat)
    (st : pstate) :
  play site tx_site sched (boot codes) = Some s →
  play site tx_site more s = Some s' →
  promises s !! p = Some st →
  settled st = true →
  promises s' !! p = Some st.
Proof.
  intros Hrun Hmore Hp Hst.
  destruct (boot_run_pending _ _ _ _ _ Hrun) as (Hinv & Hpend).
  exact (run_settled site tx_site more s s' p st Hinv Hpend Hmore Hp Hst).
Qed.

(** X15 on two contenders: the promise of the first transaction, across the
    whole of the second. *)
Lemma settled_for_good_witness :
  ∃ s s', play "at wrap" "at doInTransaction" (take 8 one_after_the_other)
            (boot two_inserts) = Some s
          ∧ play "at wrap" "at doInTransaction" (drop 8 one_after_the_other) s
            = Some s'
          ∧ promises s !! 0 = Some Fulfilled
          ∧ promises s' !! 0 = Some Fulfilled.
Proof.
  eexists _, _. split; [vm_compute; reflexivity|].
  split; [vm_compute; reflexivity|]. split; [reflexivity|].
  eapply (settled_for_good "at wrap" "at doInTransaction" two_inserts
            (take 8 one_after_the_other) (drop 8 one_after_the_other) _ _ 0 Fulfilled);
    [vm_compute; reflexivity|vm_compute; reflexivity|reflexivity|reflexivity].
Defined.

(** X16.  One pending promise at most.  After any schedule from the start, a
    transaction promise that is pending is [transactionPromise] itself, and
    [transactionActive] is true: every promise that an earlier transaction
    left behind is settled, and no two promises are pending together. *)
Theorem pending_promise_is_the_slot (site tx_site : string) (codes : list prog)
    (sched : list (nat * result run_info)) (s : state) (p : nat) :
  play site tx_site sched (boot codes) = Some s →
  promises s !! p = Some Pending →
  transactionActive s = true ∧ transactionPromise s = Some p
  ∧ ∀ q, promises s !! q = Some Pending → q = p.
Proof.
  intros Hrun Hp.
  assert (Hone : pending_is_slot s).
  { eapply (run_pending_is_slot site tx_site sched (boot codes) s);
      [apply boot_invariant| | |exact Hrun].
    - intros c ch q Hc Hq. unfold boot in Hc. simpl in Hc.
      apply boot_chain_idle in Hc. apply owned_promise_owners in Hq. lia.
    - intros q Hq. unfold boot in Hq. simpl in Hq. by rewrite lookup_nil in Hq. }
  destruct (Hone _ Hp) as [Ha Htp]. split; [exact Ha|]. split; [exact Htp|].
  intros q Hq. destruct (Hone _ Hq) as [_ Htq]. congruence.
Qed.

(** X16 on two contenders, during the second transaction. *)
Lemma pending_promise_is_the_slot_witness :
  ∃ s, play "at wrap" "at doInTransaction" (take 10 one_after_the_other)
         (boot two_inserts) = Some s
       ∧ promises s = [Fulfilled; Pending]
       ∧ (transactionActive s = true ∧ transactionPromise s = Some 1
          ∧ ∀ q, promises s !! q = Some Pending → q = 1).
Proof.
  eexists. split; [vm_compute; reflexivity|]. split; [reflexivity|].
  apply (pending_promise_is_the_slot "at wrap" "at doInTransaction" two_inserts
           (take 10 one_after_the_other));
    [vm_compute; reflexivity|reflexivity].
Defined.

End CoordinatorMore.

(** * Further properties of the query executor *)

Module ExecutorMore.
Import Executor ExecutorFacts.

Section Columns.

Variable db : driver.
Variable site : string.

(** A loop that pushes one value per row builds the list of those values. *)
Lemma foldl_push {A B} (f : A → B) (acc : list B) (rows : list A) :
  foldl (λ lst row, lst ++ [f row]) acc rows = acc ++ (f <$> rows).
Proof.
  revert acc. induction rows as [|row rows IH]; intros acc; simpl.
  - by rewrite app_nil_r.
  - rewrite IH. by rewrite <- app_assoc.
Qed.

(** The loop of [getColumn] (lines 92-94) over the rows [rows]. *)
Lemma getColumn_ok query params rows w :
  all db query params = Ok rows →
  getColumn db site query params w =
    (Ok ((λ row, member row (column_key rows)) <$> rows),
     World (log w) (calls w ++ [CallAll query params])).
Proof.
  intros H. unfold getColumn, bind. rewrite (getRows_ok _ _ _ _ _ _ H).
  destruct rows as [|row rows]; [reflexivity|].
  rewrite bool_decide_eq_false_2 by (simpl; lia).
  unfold ret. by rewrite foldl_push.
Qed.

(** A row whose first column is named [k], read under [k]. *)
Lemma member_head (row : props) (k : string) :
  head (object_keys row) = Some k → member row (VStr k) = first_column row.
Proof.
  destruct row as [|[k' v] row]; [done|]. unfold object_keys. simpl.
  intros [= ->]. unfold member. simpl. by rewrite bool_decide_eq_true_2.
Qed.

End Columns.

Section Placeholders.

Lemma count_char_app (c : Ascii.ascii) (s1 s2 : string) :
  count_char c (s1 +:+ s2) = count_char c s1 + count_char c s2.
Proof. induction s1 as [|c' s1 IH]; simpl; [done|]. rewrite IH. lia. Qed.

(** Joining with a separator that has no [c] adds no [c]. *)
Lemma count_char_join (c : Ascii.ascii) (sep : string) (l : list string) :
  count_char c sep = 0 →
  count_char c (join sep l) = sum_list (count_char c <$> l).
Proof.
  intros Hsep. unfold join. induction l as [|x l IH]; [done|].
  destruct l as [|y l]; [simpl; lia|].
  change (String.concat sep (x :: y :: l)) with (x +:+ sep +:+ String.concat sep (y :: l)).
  rewrite !count_char_app, IH, Hsep. simpl. lia.
Qed.

Lemma count_placeholders {A} (l : list A) :
  sum_list (count_char question_mark <$> map (λ _, "?") l) = length l.
Proof. induction l as [|x l IH]; [done|]. simpl in *. by f_equal. Qed.

Lemma count_names (l : list string) :
  Forall (λ k, count_char question_mark k = 0) l →
  sum_list (count_char question_mark <$> l) = 0.
Proof.
  induction 1 as [|k l Hk _ IH]; [done|].
  rewrite fmap_cons. change (sum_list (?x :: ?l)) with (x + sum_list l).
  by rewrite Hk, IH.
Qed.

Lemma insert_statement_placeholders (table_name : string) (rec : props) (r : bool) :
  count_char question_mark table_name = 0 →
  Forall (λ k, count_char question_mark k = 0) (object_keys rec) →
  count_char question_mark (insert_statement table_name rec r)
  = length (object_values rec).
Proof.
  intros Ht Hk. unfold insert_statement.
  rewrite !count_char_app, !count_char_join by reflexivity.
  rewrite count_placeholders, (count_names _ Hk), Ht.
  unfold object_keys, object_values. rewrite !length_fmap.
  destruct r; simpl; lia.
Qed.

End Placeholders.

(** X9.  [getColumn] returns the first column.  When the driver resolves the
    query to rows whose first column has one and the same name, [getColumn]
    returns the first-column value of every row, one per row and in the
    order of the rows (the empty list for no row); it does not throw or log
    and makes the one [db.all] call. *)
Theorem getColumn_first_column (db : driver) (site query : string)
    (params : list value) (rows : list props) (k : string) (w : world) :
  all db query params = Ok rows →
  Forall (λ row, head (object_keys row) = Some k) rows →
  getColumn db site query params w =
    (Ok (first_column <$> rows), World (log w) (calls w ++ [CallAll query params])).
Proof.
  intros H Hk. rewrite (getColumn_ok _ _ _ _ _ _ H). do 2 f_equal.
  apply Forall_fmap_ext_1.
  assert (Hkey : rows ≠ [] → column_key rows = VStr k).
  { destruct rows as [|row rows]; [done|]. intros _.
    apply Forall_cons_1 in Hk as [Hrow _]. unfold column_key, array_get. simpl.
    unfold object_keys in *. destruct row as [|[k' v] row]; [done|].
    simpl in *. by injection Hrow as ->. }
  destruct rows as [|row0 rows0]; [constructor|].
  rewrite Hkey by done.
  eapply Forall_impl; [exact Hk|]. intros row Hrow. by apply member_head.
Qed.

(** X9 on the identifiers of three notes. *)
Lemma getColumn_first_column_witness :
  getColumn (answering [[("noteId", VStr "a")]; [("noteId", VStr "b")];
                        [("noteId", VStr "c")]] VNull)
      "at wrap" "SELECT noteId FROM notes" [] start =
    (Ok [VStr "a"; VStr "b"; VStr "c"],
     World [] [CallAll "SELECT noteId FROM notes" []]).
Proof.
  apply (getColumn_first_column
           (answering [[("noteId", VStr "a")]; [("noteId", VStr "b")];
                       [("noteId", VStr "c")]] VNull)
           "at wrap" "SELECT noteId FROM notes" []
           [[("noteId", VStr "a")]; [("noteId", VStr "b")]; [("noteId", VStr "c")]]
           "noteId" start); [reflexivity|].
  repeat constructor.
Defined.



(** X11.  [getValue] is the head of [getColumn].  On every connection, query
    and parameters, [getValue] behaves as [getColumn] followed by taking the
    first entry, [null] standing in for an empty list: the same value or the
    same error, the same log, the same call on the driver. *)
Theorem getValue_head_of_getColumn (db : driver) (site query : string)
    (params : list value) (w : world) :
  getValue db site query params w =
    bind (getColumn db site query params) (λ l, ret (default VNull (head l))) w.
Proof.
  destruct (all db query params) as [rows|e] eqn:H.
  - unfold bind at 1. rewrite (getColumn_ok _ _ _ _ _ _ H).
    unfold getValue, bind. rewrite (getRowOrNull_ok _ _ _ _ _ _ H).
    destruct rows as [|row rows]; reflexivity.
  - unfold getValue, getRowOrNull, getColumn, bind.
    by rewrite (getRows_thrown _ _ _ _ _ _ H).
Qed.

(** X12.  One placeholder per value.  For a record with a field, a table
    name and column names that hold no question mark, the statement that
    [insert] (and so [replace]) sends has exactly as many placeholders [?]
    as the call has parameters, the values of the record in the order of its
    columns. *)
Theorem insert_one_placeholder_per_value (db : driver) (site table_name : string)
    (rec : props) (r : bool) (w : world) :
  rec ≠ [] →
  count_char question_mark table_name = 0 →
  Forall (λ k, count_char question_mark k = 0) (object_keys rec) →
  ∃ q, calls (insert db site table_name rec r w).2
       = calls w ++ [CallRun q (object_values rec)]
       ∧ calls (replace db site table_name rec w).2
         = calls w ++ [CallRun (insert_statement table_name rec true) (object_values rec)]
       ∧ count_char question_mark q = length (object_values rec)
       ∧ count_char question_mark (insert_statement table_name rec true)
         = length (object_values rec).
Proof.
  intros Hne Ht Hk.
  assert (Hcalls : ∀ r', calls (insert db site table_name rec r' w).2
            = calls w ++ [CallRun (insert_statement table_name rec r')
                            (object_values rec)]).
  { intros r'. rewrite insert_unfold by done. unfold bind.
    pose proof (execute_calls db site (insert_statement table_name rec r')
                  (object_values rec) w) as Hc.
    destruct (execute db site (insert_statement table_name rec r')
                (object_values rec) w) as [[res|e] w']; exact Hc. }
  exists (insert_statement table_name rec r).
  split; [apply Hcalls|]. split; [apply Hcalls|].
  split; by apply insert_statement_placeholders.
Qed.

(** X12 on a note of two columns. *)
Lemma insert_one_placeholder_per_value_witness :
  ∃ q, calls (insert (answering [] (VNum 7)) "at wrap" "notes"
                [("noteId", VStr "n1"); ("title", VStr "hi")] false start).2
       = calls start ++ [CallRun q [VStr "n1"; VStr "hi"]]
       ∧ calls (replace (answering [] (VNum 7)) "at wrap" "notes"
                  [("noteId", VStr "n1"); ("title", VStr "hi")] start).2
         = calls start
           ++ [CallRun "INSERT OR REPLACE INTO notes(noteId, title) VALUES (?, ?)"
                 [VStr "n1"; VStr "hi"]]
       ∧ count_char question_mark q = 2
       ∧ count_char question_mark
           "INSERT OR REPLACE INTO notes(noteId, title) VALUES (?, ?)" = 2.
Proof.
  apply (insert_one_placeholder_per_value (answering [] (VNum 7)) "at wrap" "notes"
           [("noteId", VStr "n1"); ("title", VStr "hi")] false start).
  - discriminate.
  - reflexivity.
  - repeat constructor.
Defined.

End ExecutorMore.

(** * Properties of the index route *)

Module RoutesFacts.
Import Executor ExecutorFacts Routes.

Section Strings.

Lemma append_assoc (s1 s2 s3 : string) : (s1 +:+ s2) +:+ s3 = s1 +:+ (s2 +:+ s3).
Proof.
  induction s1 as [|c s1 IH]; [done|].
  change (String c ((s1 +:+ s2) +:+ s3) = String c (s1 +:+ (s2 +:+ s3))).
  by rewrite IH.
Qed.

Lemma append_empty (s : string) : s +:+ "" = s.
Proof.
  induction s as [|c s IH]; [done|].
  change (String c (s +:+ "") = String c s). by rewrite IH.
Qed.

Lemma join_empty_cons (x : string) (l : list string) :
  join "" (x :: l) = x +:+ join "" l.
Proof. destruct l as [|y l]; simpl; [by rewrite append_empty|done]. Qed.

(** The loop of [getAppCss] (lines 21-26) from the text [css]. *)
Lemma css_loop (css : string) (notes : list props) :
  foldl (λ css note,
           css +:+ ("/* " +:+ to_string (prop_get note "noteId") +:+ " */"
                    +:+ newline +:+ to_string (prop_get note "content")
                    +:+ newline +:+ newline))
        css notes
  = css +:+ join "" (css_block <$> notes).
Proof.
  revert css. induction notes as [|note notes IH]; intros css.
  - simpl. by rewrite append_empty.
  - rewrite fmap_cons, join_empty_cons. simpl foldl. rewrite IH.
    by rewrite append_assoc.
Qed.

Lemma getAppCss_ok (getNotesWithLabel : string → M (list props)) notes w w' :
  getNotesWithLabel "app_css" w = (Ok notes, w') →
  getAppCss getNotesWithLabel w = (Ok (join "" (css_block <$> notes)), w').
Proof. intros H. unfold getAppCss, bind, ret. by rewrite H, css_loop. Qed.

Lemma getAppCss_thrown (getNotesWithLabel : string → M (list props)) e w w' :
  getNotesWithLabel "app_css" w = (Thrown e, w') →
  getAppCss getNotesWithLabel w = (Thrown e, w').
Proof. intros H. unfold getAppCss, bind. by rewrite H. Qed.

End Strings.

(** X13.  The aggregated style sheet.  [getAppCss] asks the label service
    once, for the label [app_css].  When that resolves to [notes], the style
    sheet is the blocks of the notes, one per note and in their order, with
    nothing before, between or after (the empty text for no note); a block
    is a comment with the note's identifier, a line break, the note's
    content and two line breaks.  When the label service throws, [getAppCss]
    throws the same error.  In both cases the log and the connection are as
    the label service left them. *)
Theorem getAppCss_blocks (getNotesWithLabel : string → M (list props)) (w : world) :
  match getNotesWithLabel "app_css" w with
  | (Ok notes, w') =>
      getAppCss getNotesWithLabel w = (Ok (join "" (css_block <$> notes)), w')
  | (Thrown e, w') => getAppCss getNotesWithLabel w = (Thrown e, w')
  end.
Proof.
  destruct (getNotesWithLabel "app_css" w) as [[notes|e] w'] eqn:H.
  - by apply getAppCss_ok.
  - by apply getAppCss_thrown.
Qed.

(** X14.  What [index] renders, and when.  [index] first awaits the source
    identifier, then [getValue] on [SELECT MAX(id) FROM sync], then the
    style sheet.  When the first throws, the connection is not queried; when
    the query is rejected, [index] throws [wrap]'s error and the label
    service is not asked; when the label service throws, [index] throws its
    error.  Otherwise the page gets the source identifier, the first column
    of the first row of the query ([null] for no row), the instance name of
    the configuration ([null] when the section is absent) and the style
    sheet; the connection has received the one [db.all] call. *)
Theorem index_renders (db : driver) (site : string) (generateSourceId : M value)
    (getNotesWithLabel : string → M (list props)) (General : option props)
    (w : world) :
  let query := "SELECT MAX(id) FROM sync" in
  let rendered := index db site generateSourceId getNotesWithLabel General w in
  match generateSourceId w with
  | (Thrown e, w1) => rendered = (Thrown e, w1)
  | (Ok sid, w1) =>
      match all db query [] with
      | Thrown e => rendered = surfaced e site (CallAll query []) w1
      | Ok rows =>
          match getNotesWithLabel "app_css"
                  (World (log w1) (calls w1 ++ [CallAll query []])) with
          | (Thrown e, w3) => rendered = (Thrown e, w3)
          | (Ok notes, w3) =>
              rendered =
                (Ok (Page sid
                       (match rows with [] => VNull | row :: _ => first_column row end)
                       (match General with
                        | Some general => prop_get general "instanceName"
                        | None => VNull
                        end)
                       (join "" (css_block <$> notes))),
                 w3)
          end
      end
  end.
Proof.
  intros query rendered. subst rendered.
  destruct (generateSourceId w) as [[sid|e] w1] eqn:Hgen;
    [|by unfold index, bind; rewrite Hgen].
  destruct (all db query []) as [rows|e] eqn:Hall.
  - assert (Hv : getValue db site query [] w1 =
               (Ok (match rows with [] => VNull | row :: _ => first_column row end),
                World (log w1) (calls w1 ++ [CallAll query []]))).
    { unfold getValue, bind. rewrite (getRowOrNull_ok _ _ _ _ _ _ Hall).
      destruct rows as [|row rows]; simpl; [reflexivity|].
      unfold ret. by rewrite member_first. }
    destruct (getNotesWithLabel "app_css" _) as [[notes|e] w3] eqn:Hnotes.
    + unfold index, bind at 1 2 3. rewrite Hgen. fold query. rewrite Hv.
      by rewrite (getAppCss_ok _ _ _ _ Hnotes).
    + unfold index, bind at 1 2 3. rewrite Hgen. fold query. rewrite Hv.
      by rewrite (getAppCss_thrown _ _ _ _ Hnotes).
  - unfold index, bind at 1 2. rewrite Hgen. fold query.
    unfold getValue, getRowOrNull, bind.
    by rewrite (getRows_thrown _ _ _ _ _ _ Hall).
Qed.

End RoutesFacts.
